(** * gait: the commit-message pipeline of [CommitMessageGenerator]

    A shallow embedding of [src/git/commit-generator.ts] (the generator) and
    of the parts of [src/git/git-manager.ts] it calls.

    JavaScript strings are sequences of UTF-16 code units; a code unit is a
    number [N], a string a list of them.  Lengths and offsets are integers
    [Z], as [String.prototype.substring], [indexOf] and [lastIndexOf] see
    them (negative arguments clamp, a missing character is [-1]).  Numeric
    options ([maxLength], [maxDiffLength]) are integer-valued numbers. *)

From Stdlib Require Import List ZArith NArith Lia Bool String Ascii.
From Stdlib Require Import DecimalString.
Import ListNotations.

Local Open Scope Z_scope.

(* ================================================================== *)
(** ** JavaScript strings *)

Module JS.

Definition char := N.
Definition str := list char.

(** A literal of the source, code unit by code unit. *)
Definition lit (s : string) : str := map N_of_ascii (list_ascii_of_string s).

Definition NL : char := 10%N.      (* '\n' *)
Definition SP : char := 32%N.      (* ' '  *)
Definition COLON : char := 58%N.   (* ':'  *)

(** [s.length] *)
Definition len (s : str) : Z := Z.of_nat (List.length s).

Definition char_eqb (a b : char) : bool := N.eqb a b.

Fixpoint str_eqb (a b : str) : bool :=
  match a, b with
  | [], [] => true
  | x :: a', y :: b' => char_eqb x y && str_eqb a' b'
  | _, _ => false
  end.

(** [s.substring(a, b)]: both ends clamp to [0 .. s.length] and are swapped
    when [a > b]. *)
Definition clamp (n x : Z) : Z := Z.max 0 (Z.min x n).

Definition substring (s : str) (a b : Z) : str :=
  let a' := clamp (len s) a in
  let b' := clamp (len s) b in
  let lo := Z.min a' b' in
  let hi := Z.max a' b' in
  firstn (Z.to_nat (hi - lo)) (skipn (Z.to_nat lo) s).

(** [s.substring(a)] *)
Definition substringFrom (s : str) (a : Z) : str := substring s a (len s).

(** [s.indexOf(c)] for a one-character needle. *)
Fixpoint indexOf (s : str) (c : char) : Z :=
  match s with
  | [] => -1
  | x :: s' =>
      if char_eqb x c then 0
      else let r := indexOf s' c in if r <? 0 then -1 else r + 1
  end.

(** [s.lastIndexOf(c)] for a one-character needle. *)
Fixpoint lastIndexOf (s : str) (c : char) : Z :=
  match s with
  | [] => -1
  | x :: s' =>
      let r := lastIndexOf s' c in
      if 0 <=? r then r + 1 else if char_eqb x c then 0 else -1
  end.

(** [s.startsWith(p)] and [s.includes(needle)] *)
Fixpoint startsWith (s p : str) : bool :=
  match p, s with
  | [], _ => true
  | a :: p', b :: s' => char_eqb a b && startsWith s' p'
  | _ :: _, [] => false
  end.

Fixpoint includes (s needle : str) : bool :=
  startsWith s needle ||
  match s with
  | [] => false
  | _ :: s' => includes s' needle
  end.

(** [s.split(c)] for a one-character separator: never the empty array. *)
Fixpoint split (s : str) (c : char) : list str :=
  match s with
  | [] => [[]]
  | x :: s' =>
      if char_eqb x c then [] :: split s' c
      else match split s' c with
           | l :: ls => (x :: l) :: ls
           | [] => [[x]]
           end
  end.

(** [lines.join(sep)] *)
Fixpoint join (sep : str) (lines : list str) : str :=
  match lines with
  | [] => []
  | [l] => l
  | l :: ls => l ++ sep ++ join sep ls
  end.

(** WhiteSpace and LineTerminator of ECMAScript: what [trim] strips and
    what [\s] matches. *)
Definition isWhiteSpace (c : char) : bool :=
  ((9 <=? c) && (c <=? 13) || (c =? 32) || (c =? 160) || (c =? 5760)
   || (8192 <=? c) && (c <=? 8202) || (c =? 8232) || (c =? 8233)
   || (c =? 8239) || (c =? 8287) || (c =? 12288) || (c =? 65279))%N.

(** Line terminators: what [.] does not match. *)
Definition isLineTerminator (c : char) : bool :=
  ((c =? 10) || (c =? 13) || (c =? 8232) || (c =? 8233))%N.

Fixpoint trimStart (s : str) : str :=
  match s with
  | [] => []
  | c :: s' => if isWhiteSpace c then trimStart s' else s
  end.

Definition trimEnd (s : str) : str := rev (trimStart (rev s)).

(** [s.trim()] *)
Definition trim (s : str) : str := trimEnd (trimStart s).

(** [arr.length] *)
Definition arrayLength {A : Type} (arr : list A) : Z :=
  Z.of_nat (List.length arr).

(** [arr[0]] of an array of strings ([undefined] never arises for the
    result of [split]; the empty string stands for it). *)
Definition first (lines : list str) : str := hd [] lines.

(** [arr[0] = v] *)
Definition setFirst (lines : list str) (v : str) : list str :=
  match lines with
  | [] => [v]
  | _ :: rest => v :: rest
  end.

(** [c.toUpperCase()] and [c.toLowerCase()] on the letters of ASCII.  Code
    units outside ASCII are left alone: none of them maps to a letter used
    by a pattern or a needle of this program (the regular expressions
    compare case-insensitively only within ASCII, and no character lowers
    to a letter of [readme]). *)
Definition toUpperAscii (c : char) : char :=
  (if (97 <=? c) && (c <=? 122) then c - 32 else c)%N.

Definition toLowerAscii (c : char) : char :=
  (if (65 <=? c) && (c <=? 90) then c + 32 else c)%N.

Definition toLowerCase (s : str) : str := map toLowerAscii s.

(** [`${n}`] for an integer-valued number (below 1e21, where JavaScript
    still prints plain decimal digits). *)
Definition numberToString (n : Z) : str :=
  lit (NilZero.string_of_int (Z.to_int n)).

(** [x || d] on a possibly missing number: [undefined] and [0] are falsy. *)
Definition orDefault (x : option Z) (d : Z) : Z :=
  match x with
  | Some 0 => d
  | Some n => n
  | None => d
  end.

End JS.

Import JS.

(* ================================================================== *)
(** ** Diff truncation *)

Definition marker : str := lit "[... diff truncated ...]".

(** ['\n\n[... diff truncated ...]'] *)
Definition truncationSuffix : str := NL :: NL :: marker.

(** [truncateDiff(diff, maxLength)].  The test
    [lastNewline > maxLength * 0.8] compares an integer with the product of
    an integer and [0.8].  For an integer budget within the exact range of
    a double, the rounded product is the integer [4 * maxLength / 5] when 5
    divides the budget and otherwise lies strictly between the same two
    integers as the exact quotient, so the test is
    [4 * maxLength < 5 * lastNewline]. *)
Definition truncateDiff (diff : str) (maxLength : Z) : str :=
  if len diff <=? maxLength then diff
  else
    let truncated := substring diff 0 maxLength in
    let lastNewline := lastIndexOf truncated NL in
    if 4 * maxLength <? 5 * lastNewline
    then substring truncated 0 lastNewline ++ truncationSuffix
    else truncated ++ truncationSuffix.

(** [k] is the offset of the last newline among the first [m] characters
    of [d]. *)
Definition lastNewlineAt (d : str) (m k : Z) : Prop :=
  0 <= k < m
  /\ nth_error d (Z.to_nat k) = Some NL
  /\ forall j, k < j < m -> nth_error d (Z.to_nat j) <> Some NL.

(* ================================================================== *)
(** ** Regular expressions

    The patterns of the source that are only tested ([RegExp.test],
    [String.match] used as a condition) are matched by derivatives: a string
    passes the test when some substring between the anchors belongs to the
    language of the pattern. *)

Module Regex.

Inductive regex : Type :=
| Empty
| Eps
| Cls (p : char -> bool)
| Seq (r s : regex)
| Alt (r s : regex)
| Star (r : regex).

Fixpoint nullable (r : regex) : bool :=
  match r with
  | Empty => false
  | Eps => true
  | Cls _ => false
  | Seq r s => nullable r && nullable s
  | Alt r s => nullable r || nullable s
  | Star _ => true
  end.

(** Constructors that drop the dead branches a derivative leaves behind. *)
Definition seq (r s : regex) : regex :=
  match r, s with
  | Empty, _ => Empty
  | _, Empty => Empty
  | Eps, _ => s
  | _, _ => Seq r s
  end.

Definition alt (r s : regex) : regex :=
  match r, s with
  | Empty, _ => s
  | _, Empty => r
  | _, _ => Alt r s
  end.

Fixpoint deriv (c : char) (r : regex) : regex :=
  match r with
  | Empty => Empty
  | Eps => Empty
  | Cls p => if p c then Eps else Empty
  | Seq r s =>
      if nullable r then alt (seq (deriv c r) s) (deriv c s)
      else seq (deriv c r) s
  | Alt r s => alt (deriv c r) (deriv c s)
  | Star r => seq (deriv c r) (Star r)
  end.

Definition matches (r : regex) (s : str) : bool :=
  nullable (fold_left (fun r c => deriv c r) s r).

(** The pieces of the concrete syntax. *)
Definition Chr (c : char) : regex := Cls (char_eqb c).
(* a character under the [i] flag *)
Definition ChrI (c : char) : regex :=
  Cls (fun x => char_eqb (toUpperAscii x) (toUpperAscii c)).
Definition Dot : regex := Cls (fun c => negb (isLineTerminator c)).
Definition Any : regex := Cls (fun _ => true).
Definition Plus (r : regex) : regex := Seq r (Star r).
Definition Opt (r : regex) : regex := Alt Eps r.

Fixpoint Lit (s : str) : regex :=
  match s with
  | [] => Eps
  | c :: s' => Seq (Chr c) (Lit s')
  end.

Fixpoint LitI (s : str) : regex :=
  match s with
  | [] => Eps
  | c :: s' => Seq (ChrI c) (LitI s')
  end.

Fixpoint OneOf (rs : list regex) : regex :=
  match rs with
  | [] => Empty
  | [r] => r
  | r :: rs' => Alt r (OneOf rs')
  end.

(** A pattern with its anchors: [^] in front, [$] behind. *)
Record pattern : Type := {
  fromStart : bool;
  body : regex;
  toEnd : bool
}.

(** [p.test(s)] *)
Definition test (p : pattern) (s : str) : bool :=
  matches
    (Seq (if fromStart p then Eps else Star Any)
         (Seq (body p) (if toEnd p then Eps else Star Any)))
    s.

End Regex.

Import Regex.

(* ================================================================== *)
(** ** Global replacement

    [s.replace(re, repl)] with the [g] flag: the scan tries the pattern at
    each offset from the left; after a match it emits the replacement and
    resumes behind the match.  [m] gives, for the text at the current
    offset, the replacement and the number of code units matched (never
    zero for the patterns below). *)

Fixpoint replaceAll (m : str -> option (str * nat)) (s : str) (skip : nat)
  : str :=
  match s with
  | [] => []
  | c :: s' =>
      match skip with
      | S k => replaceAll m s' k
      | O =>
          match m s with
          | Some (repl, n) => repl ++ replaceAll m s' (Nat.pred n)
          | None => c :: replaceAll m s' 0
          end
      end
  end.

(** The longest run of code units satisfying [p] at the head of [s]. *)
Fixpoint run (p : char -> bool) (s : str) : str :=
  match s with
  | [] => []
  | c :: s' => if p c then c :: run p s' else []
  end.

(** [/D([^x]{min,})D/] at the head of [s], for a delimiter [D] made of the
    character [x] only: the class cannot cross an [x], so the inner text is
    the whole run of other characters behind the opening delimiter.  The
    result is the inner text and the length of the match. *)
Definition matchDelimited (d : str) (x : char) (min : nat) (s : str)
  : option (str * nat) :=
  if startsWith s d then
    let inner := run (fun c => negb (char_eqb c x)) (skipn (List.length d) s) in
    if (min <=? List.length inner)%nat
       && startsWith (skipn (List.length d + List.length inner) s) d
    then Some (inner, (List.length d + List.length inner + List.length d)%nat)
    else None
  else None.

Definition BACKTICK : char := 96%N.
Definition ASTERISK : char := 42%N.

(** [/```[^`]*```/g], replaced by [''] *)
Definition matchFence (s : str) : option (str * nat) :=
  match matchDelimited [BACKTICK; BACKTICK; BACKTICK] BACKTICK 0 s with
  | Some (_, n) => Some ([], n)
  | None => None
  end.

(** [/`([^`]+)`/g], replaced by ['$1'] *)
Definition matchInlineCode : str -> option (str * nat) :=
  matchDelimited [BACKTICK] BACKTICK 1.

(** [/\*\*([^*]+)\*\*/g], replaced by ['$1'] *)
Definition matchBold : str -> option (str * nat) :=
  matchDelimited [ASTERISK; ASTERISK] ASTERISK 1.

(** [/\*([^*]+)\*/g], replaced by ['$1'] *)
Definition matchItalic : str -> option (str * nat) :=
  matchDelimited [ASTERISK] ASTERISK 1.

(** [/ +/g], replaced by [' '] *)
Definition matchSpaces (s : str) : option (str * nat) :=
  match run (char_eqb SP) s with
  | [] => None
  | r => Some ([SP], List.length r)
  end.

(** [/\n{3,}/g], replaced by ['\n\n'] *)
Definition matchNewlines (s : str) : option (str * nat) :=
  let r := run (char_eqb NL) s in
  if (3 <=? List.length r)%nat then Some ([NL; NL], List.length r) else None.

(* ================================================================== *)
(** ** Generation options *)

Record Options : Type := {
  format : option str;
  maxLength : option Z;
  maxDiffLength : option Z
}.

(** [{}] *)
Definition noOptions : Options :=
  {| format := None; maxLength := None; maxDiffLength := None |}.

(* ================================================================== *)
(** ** Message post-processing *)

(** The value of [processed] when the markdown and whitespace replacements
    are done (lines 105-115). *)
Definition cleaned (message : str) : str :=
  let processed := trim message in
  let processed := replaceAll matchFence processed 0 in
  let processed := replaceAll matchInlineCode processed 0 in
  let processed := replaceAll matchBold processed 0 in
  let processed := replaceAll matchItalic processed 0 in
  let processed := replaceAll matchSpaces processed 0 in
  let processed := replaceAll matchNewlines processed 0 in
  processed.

(** The value of [lines] when the first line has been shortened
    (lines 118-139). *)
Definition budgeted (processed : str) (options : Options) : list str :=
  let lines := split processed NL in
  let maxLength := orDefault (maxLength options) 50 in
  if maxLength <? len (first lines) then
    let firstLine := first lines in
    let colonIndex := indexOf firstLine COLON in
    if (0 <? colonIndex) && (colonIndex <? maxLength) then
      let prefix := substring firstLine 0 (colonIndex + 1) in
      let description := trim (substringFrom firstLine (colonIndex + 1)) in
      let maxDescLength := maxLength - len prefix - 1 in
      if maxDescLength <? len description then
        setFirst lines
          (prefix ++ [SP] ++ trim (substring description 0 maxDescLength))
      else lines
    else
      setFirst lines (trim (substring firstLine 0 maxLength))
  else lines.

(** [postProcessMessage(message, options)] *)
Definition postProcessMessage (message : str) (options : Options) : str :=
  trim (join [NL] (budgeted (cleaned message) options)).

(** A string with a character that [trim] keeps. *)
Definition nonBlank (s : str) : bool :=
  existsb (fun c => negb (isWhiteSpace c)) s.

(* ================================================================== *)
(** ** Message validation *)

Record Validation : Type := {
  valid : bool;
  errors : list str;
  warnings : list str
}.

(** [validation.errors.push(e)], [validation.warnings.push(w)] and
    [validation.valid = b] *)
Definition pushError (e : str) (v : Validation) : Validation :=
  {| valid := valid v; errors := errors v ++ [e]; warnings := warnings v |}.

Definition pushWarning (w : str) (v : Validation) : Validation :=
  {| valid := valid v; errors := errors v; warnings := warnings v ++ [w] |}.

Definition setValid (b : bool) (v : Validation) : Validation :=
  {| valid := b; errors := errors v; warnings := warnings v |}.

Definition LPAREN : char := 40%N.
Definition RPAREN : char := 41%N.
Definition QUOTE : char := 34%N.

Definition commitTypes : list str :=
  map lit ["feat"; "fix"; "docs"; "style"; "refactor"; "perf"; "test";
           "chore"; "ci"; "build"; "revert"]%string.

(** [/^(feat|fix|docs|style|refactor|perf|test|chore|ci|build|revert)(\(.+\))?: .+/] *)
Definition conventionalRegex : pattern :=
  {| fromStart := true;
     body :=
       Seq (OneOf (map Lit commitTypes))
           (Seq (Opt (Seq (Chr LPAREN) (Seq (Plus Dot) (Chr RPAREN))))
                (Seq (Lit (lit ": ")) (Plus Dot)));
     toEnd := false |}.

(** [/(ed|ing|s)$/i] *)
Definition verbEndingRegex : pattern :=
  {| fromStart := false;
     body := OneOf [LitI (lit "ed"); LitI (lit "ing"); LitI (lit "s")];
     toEnd := true |}.

(** [firstLine.replace(/^[^:]*:\s*/, '')]: the class cannot cross a colon,
    so the match, when there is one, runs through the first colon and the
    white space behind it. *)
Definition stripLeadingToken (firstLine : str) : str :=
  let i := indexOf firstLine COLON in
  if i <? 0 then firstLine else trimStart (substringFrom firstLine (i + 1)).

Definition errTooLong : str :=
  lit "First line is too long (over 72 characters)".
Definition warnLong : str :=
  lit "First line is longer than recommended 50 characters".
Definition errFormat : str :=
  lit "First line does not follow conventional commit format".
Definition warnMood : str :=
  lit "Consider using imperative mood (e.g., " ++ [QUOTE] ++ lit "add"
  ++ [QUOTE] ++ lit " instead of " ++ [QUOTE] ++ lit "added" ++ [QUOTE]
  ++ lit ")".
Definition warnBlankLine : str :=
  lit "Consider adding a blank line after the first line".

Definition conventional : str := lit "conventional".

(** [validateMessage(message, format)] *)
Definition validateMessage (message format : str) : Validation :=
  let lines := split message NL in
  let firstLine := first lines in
  let validation := {| valid := true; errors := []; warnings := [] |} in
  (* Check first line length *)
  let validation :=
    if 72 <? len firstLine then setValid false (pushError errTooLong validation)
    else if 50 <? len firstLine then pushWarning warnLong validation
    else validation in
  (* Check conventional commit format *)
  let validation :=
    if str_eqb format conventional then
      if negb (test conventionalRegex firstLine)
      then setValid false (pushError errFormat validation)
      else validation
    else validation in
  (* Check imperative mood (basic check) *)
  let firstWord := first (split (stripLeadingToken firstLine) SP) in
  let validation :=
    if test verbEndingRegex firstWord then pushWarning warnMood validation
    else validation in
  (* Check for blank line after first line if there's a body *)
  let validation :=
    if (1 <? arrayLength lines)
       && negb (str_eqb (nth 1 lines []) [])
    then pushWarning warnBlankLine validation
    else validation in
  validation.

(* ================================================================== *)
(** ** The status snapshot ([git-manager.ts]) *)

Module GitManager.

(** What [simple-git]'s [status()] resolves to, as far as [getStatus]
    reads it. *)
Record StatusResult : Type := {
  sg_staged : list str;
  sg_modified : list str;
  sg_deleted : list str;
  sg_not_added : list str;
  sg_conflicted : list str
}.

(** The interface [GitStatus]; [hasChanges] is a method. *)
Record GitStatus : Type := {
  added : list str;
  modified : list str;
  deleted : list str;
  untracked : list str;
  conflicted : list str;
  hasChanges : unit -> bool
}.

(** The object literal [getStatus] returns for a resolved [status]. *)
Definition statusOf (status : StatusResult) : GitStatus :=
  {| added := sg_staged status;
     modified := sg_modified status;
     deleted := sg_deleted status;
     untracked := sg_not_added status;
     conflicted := sg_conflicted status;
     hasChanges := fun _ =>
       (0 <? arrayLength (sg_staged status))
       || (0 <? arrayLength (sg_modified status))
       || (0 <? arrayLength (sg_deleted status))
       || (0 <? arrayLength (sg_not_added status)) |}.

End GitManager.

Import GitManager.

(* ================================================================== *)
(** ** Prompt building *)

(** [buildPrompt(diffSummary, options)], with [diffSummary] given by its
    two fields [status] and [diff]. *)
Definition buildPrompt (status : GitStatus) (diff : str) (options : Options)
  : str :=
  let prompt :=
    lit "Generate a commit message for the following Git changes:"
    ++ [NL; NL] in
  (* Add file changes summary *)
  let prompt := prompt ++ lit "Files changed:" ++ [NL] in
  let prompt :=
    if 0 <? arrayLength (added status)
    then prompt ++ lit "- Added: " ++ join (lit ", ") (added status) ++ [NL]
    else prompt in
  let prompt :=
    if 0 <? arrayLength (modified status)
    then prompt ++ lit "- Modified: " ++ join (lit ", ") (modified status)
         ++ [NL]
    else prompt in
  let prompt :=
    if 0 <? arrayLength (deleted status)
    then prompt ++ lit "- Deleted: " ++ join (lit ", ") (deleted status)
         ++ [NL]
    else prompt in
  let prompt :=
    if 0 <? arrayLength (untracked status)
    then prompt ++ lit "- Untracked: " ++ join (lit ", ") (untracked status)
         ++ [NL]
    else prompt in
  (* Add diff (truncated if too long) *)
  let prompt := prompt ++ [NL] ++ lit "Code changes:" ++ [NL] in
  let diff := truncateDiff diff (orDefault (maxDiffLength options) 3000) in
  let prompt := prompt ++ diff in
  (* Add specific instructions *)
  let prompt := prompt ++ [NL; NL] ++ lit "Instructions:" ++ [NL] in
  let prompt :=
    match format options with
    | Some f =>
        if str_eqb f conventional
        then prompt
             ++ lit "- Use conventional commit format (type(scope): description)"
             ++ [NL]
        else prompt
    | None => prompt
    end in
  let prompt :=
    prompt ++ lit "- Keep the first line under "
    ++ numberToString (orDefault (maxLength options) 50)
    ++ lit " characters" ++ [NL] in
  let prompt := prompt ++ lit "- Use present tense, imperative mood" ++ [NL] in
  let prompt :=
    prompt ++ lit "- Focus on what the change accomplishes" ++ [NL] in
  prompt.

(* ================================================================== *)
(** ** Suggestions *)

Module Suggestion.
Record t : Type := { type : str; message : str }.
End Suggestion.

(** The value of [diffSummary.diff] at run time.  The parameter is declared
    [string[]], while [GitManager.getDiffSummary] yields the diff as one
    string; the annotation is erased at run time and [includes] exists on
    both, so both shapes are kept: on a string it searches a substring, on
    an array an element. *)
Inductive DiffValue : Type :=
| DiffText (text : str)
| DiffLines (lines : list str).

(** [diffSummary.diff.includes(needle)] *)
Definition diffIncludes (diff : DiffValue) (needle : str) : bool :=
  match diff with
  | DiffText text => includes text needle
  | DiffLines lines => existsb (str_eqb needle) lines
  end.

Definition DOT : char := 46%N.

(** [/\.(js|ts|py|java|go|rs|cpp|c)$/] *)
Definition codeFileRegex : pattern :=
  {| fromStart := false;
     body :=
       Seq (Chr DOT)
           (OneOf (map (fun e => Lit (lit e))
                       ["js"; "ts"; "py"; "java"; "go"; "rs"; "cpp"; "c"]%string));
     toEnd := true |}.

(** [/\.(md|rst|txt)$/i] *)
Definition docFileRegex : pattern :=
  {| fromStart := false;
     body :=
       Seq (Chr DOT)
           (OneOf (map (fun e => LitI (lit e)) ["md"; "rst"; "txt"]%string));
     toEnd := true |}.

Definition hasTestChanges (status : GitStatus) : bool :=
  existsb (fun file => includes file (lit "test") || includes file (lit "spec"))
          (added status ++ modified status).

Definition hasCodeChanges (status : GitStatus) : bool :=
  existsb (fun file => test codeFileRegex file)
          (added status ++ modified status).

Definition hasDocChanges (status : GitStatus) : bool :=
  existsb (fun file =>
             test docFileRegex file
             || includes (toLowerCase file) (lit "readme"))
          (added status ++ modified status).

Definition hasPublicAPIChanges (diff : DiffValue) : bool :=
  diffIncludes diff (lit "export") || diffIncludes diff (lit "public").

Definition suggestTests : Suggestion.t :=
  {| Suggestion.type := lit "warning";
     Suggestion.message := lit "Consider adding tests for your code changes" |}.

Definition suggestDocs : Suggestion.t :=
  {| Suggestion.type := lit "info";
     Suggestion.message :=
       lit "Consider updating documentation for API changes" |}.

Definition suggestBreaking : Suggestion.t :=
  {| Suggestion.type := lit "warning";
     Suggestion.message :=
       lit "This may be a breaking change - consider using BREAKING CHANGE footer" |}.

(** [getSuggestions(message, diffSummary)], with [diffSummary] given by its
    two fields. *)
Definition getSuggestions (message : str) (status : GitStatus)
  (diff : DiffValue) : list Suggestion.t :=
  let suggestions := [] in
  (* Check for missing test files *)
  let suggestions :=
    if hasCodeChanges status && negb (hasTestChanges status)
    then suggestions ++ [suggestTests] else suggestions in
  (* Check for documentation updates *)
  let suggestions :=
    if hasPublicAPIChanges diff && negb (hasDocChanges status)
    then suggestions ++ [suggestDocs] else suggestions in
  (* Check for breaking changes *)
  let suggestions :=
    if diffIncludes diff (lit "BREAKING") || diffIncludes diff (lit "breaking")
       || (0 <? arrayLength (deleted status))
    then suggestions ++ [suggestBreaking] else suggestions in
  (* Check commit message quality *)
  let validation := validateMessage message conventional in
  let suggestions :=
    if negb (valid validation)
    then suggestions
         ++ map (fun error =>
                   {| Suggestion.type := lit "error";
                      Suggestion.message := error |})
                (errors validation)
    else suggestions in
  let suggestions :=
    if 0 <? arrayLength (warnings validation)
    then suggestions
         ++ map (fun warning =>
                   {| Suggestion.type := lit "warning";
                      Suggestion.message := warning |})
                (warnings validation)
    else suggestions in
  suggestions.

(* ================================================================== *)
(** ** Effects: rejections and the calls that leave the process

    An [async] function either resolves to a value or rejects with an
    [Error] carrying a message.  The world records what the generator does
    to its collaborators: the prompts handed to [agent.generate] and what
    was written to the console, oldest first. *)

Inductive result (A : Type) : Type :=
| Resolved (a : A)
| Rejected (message : str).

Arguments Resolved {A} a.
Arguments Rejected {A} message.

(** What a call of [console.log] or [console.warn] was given: a string,
    or the response object of the agent.  The object is printed as an
    object, not as its text; it is kept by its [text], the one field the
    generator reads. *)
Inductive Logged : Type :=
| Line (text : str)
| ResponseObject (text : str).

Record World : Type := {
  backendCalls : list str;
  consoleLog : list Logged
}.

Definition Eff (A : Type) : Type := World -> result A * World.

Definition ret {A : Type} (a : A) : Eff A := fun w => (Resolved a, w).

Definition throw {A : Type} (message : str) : Eff A :=
  fun w => (Rejected message, w).

Definition bind {A B : Type} (m : Eff A) (k : A -> Eff B) : Eff B :=
  fun w =>
    match m w with
    | (Resolved a, w') => k a w'
    | (Rejected e, w') => (Rejected e, w')
    end.

(** [try { m } catch (error) { h(error.message) }] *)
Definition tryCatch {A : Type} (m : Eff A) (h : str -> Eff A) : Eff A :=
  fun w =>
    match m w with
    | (Resolved a, w') => (Resolved a, w')
    | (Rejected e, w') => h e w'
    end.

(** [await] of a promise a collaborator has settled. *)
Definition await {A : Type} (r : result A) : Eff A := fun w => (r, w).

Notation "x <- m ;; k" := (bind m (fun x => k))
  (at level 61, m at next level, right associativity).

(** [simple-git] on one working tree: what [status()], [diff(['--cached'])]
    and [diff()] settle to. *)
Record Repo : Type := {
  git_status : result StatusResult;
  git_diff_cached : result str;
  git_diff : result str
}.

(** The agent: what [generate(prompt)] settles to, as the [text] of the
    response. *)
Definition Agent : Type := str -> result str.

(** [this.agent.generate(prompt)]: the call is recorded, then settles. *)
Definition agentGenerate (agent : Agent) (prompt : str) : Eff str :=
  fun w =>
    (agent prompt,
     {| backendCalls := backendCalls w ++ [prompt];
        consoleLog := consoleLog w |}).

(** [console.log(entry)] *)
Definition log (entry : Logged) : Eff unit :=
  fun w =>
    (Resolved tt,
     {| backendCalls := backendCalls w;
        consoleLog := consoleLog w ++ [entry] |}).

(** [GitManager.getStatus()] *)
Definition getStatus (repo : Repo) : Eff GitStatus :=
  tryCatch
    (status <- await (git_status repo) ;;
     ret (statusOf status))
    (fun error => throw (lit "Failed to get git status: " ++ error)).

(** [GitManager.getDiff()] *)
Definition getDiff (repo : Repo) : Eff str :=
  tryCatch
    ((* Try to get staged changes first *)
     diff <- await (git_diff_cached repo) ;;
     (* If no staged changes, get unstaged changes *)
     if str_eqb (trim diff) [] then await (git_diff repo) else ret diff)
    (fun error => throw (lit "Failed to get git diff: " ++ error)).

(** [GitManager.createSummary(status, diff)] *)
Definition createSummary (status : GitStatus) (diff : str) : str :=
  let summary := lit "Git Status:" ++ [NL] in
  let summary :=
    if 0 <? arrayLength (added status)
    then summary ++ lit "Added: " ++ join (lit ", ") (added status) ++ [NL]
    else summary in
  let summary :=
    if 0 <? arrayLength (modified status)
    then summary ++ lit "Modified: " ++ join (lit ", ") (modified status)
         ++ [NL]
    else summary in
  let summary :=
    if 0 <? arrayLength (deleted status)
    then summary ++ lit "Deleted: " ++ join (lit ", ") (deleted status)
         ++ [NL]
    else summary in
  let summary :=
    if 0 <? arrayLength (untracked status)
    then summary ++ lit "Untracked: " ++ join (lit ", ") (untracked status)
         ++ [NL]
    else summary in
  let summary := summary ++ [NL] ++ lit "Changes:" ++ [NL] in
  summary ++ diff.

Record DiffSummary : Type := {
  status : GitStatus;
  diff : str;
  summary : str
}.

(** [GitManager.getDiffSummary()] *)
Definition getDiffSummary (repo : Repo) : Eff DiffSummary :=
  tryCatch
    (status <- getStatus repo ;;
     diff <- getDiff repo ;;
     ret {| status := status; diff := diff;
            summary := createSummary status diff |})
    (fun error => throw (lit "Failed to get diff summary: " ++ error)).

Definition noChangesMessage : str := lit "No changes detected in repository".

(** [generateCommitMessage(options)] *)
Definition generateCommitMessage (repo : Repo) (agent : Agent)
  (options : Options) : Eff str :=
  (* Get git changes *)
  diffSummary <- getDiffSummary repo ;;
  if negb (hasChanges (status diffSummary) tt) then throw noChangesMessage
  else
    (* Build prompt for AI *)
    let prompt :=
      buildPrompt (status diffSummary) (diff diffSummary) options in
    (* Generate message with AI *)
    res <- agentGenerate agent prompt ;;
    (* console.log(res): the response object, not res.text *)
    _ <- log (ResponseObject res) ;;
    ret (postProcessMessage res options).

(* ================================================================== *)
(** ** Alternatives ([generateAlternatives]) *)

Record Alternative : Type := {
  alt_format : str;
  alt_message : str
}.

(** [console.warn(text)]: written to the console like [console.log]. *)
Definition warn (text : str) : Eff unit :=
  fun w =>
    (Resolved tt,
     {| backendCalls := backendCalls w;
        consoleLog := consoleLog w ++ [Line text] |}).

(** [i === 0 ? 'conventional' : i === 1 ? 'simple' : 'detailed'] *)
Definition variedFormat (i : Z) : str :=
  if i =? 0 then conventional
  else if i =? 1 then lit "simple"
  else lit "detailed".

(** [{...options, temperature: ..., format: ...}].  The [temperature] the
    source adds is read by nothing in [generateCommitMessage]; the options
    keep the fields that are. *)
Definition variedOptions (options : Options) (i : Z) : Options :=
  {| format := Some (variedFormat i);
     maxLength := maxLength options;
     maxDiffLength := maxDiffLength options |}.

(** The [for] loop of [generateAlternatives] with [n] rounds to go, at
    index [i].  The pause of 100 ms behind each success changes no value
    and is left out. *)
Fixpoint alternativesFrom (repo : Repo) (agent : Agent) (options : Options)
  (n : nat) (i : Z) (alternatives : list Alternative)
  : Eff (list Alternative) :=
  match n with
  | O => ret alternatives
  | S n' =>
      alternatives' <-
        tryCatch
          (message <-
             generateCommitMessage repo agent (variedOptions options i) ;;
           ret (alternatives
                ++ [{| alt_format := variedFormat i;
                       alt_message := message |}]))
          (fun error =>
             _ <- warn (lit "Failed to generate alternative "
                        ++ numberToString (i + 1) ++ lit ": " ++ error) ;;
             ret alternatives) ;;
      alternativesFrom repo agent options n' (i + 1) alternatives'
  end.

(** [generateAlternatives(diffSummary, options, count)]; the first
    parameter is not read. *)
Definition generateAlternatives (repo : Repo) (agent : Agent)
  (options : Options) (count : Z) : Eff (list Alternative) :=
  alternativesFrom repo agent options (Z.to_nat count) 0 [].

(** [GitManager.isRepository()] *)
Definition isRepository (repo : Repo) : Eff bool :=
  tryCatch
    (_ <- await (git_status repo) ;;
     ret true)
    (fun _ => ret false).

(* ================================================================== *)
(** ** Committing ([commitAll], [commitStaged], [commitFiles])

    The commit functions act on the working tree.  What they do is kept
    as the list of calls made, oldest first; what each call settles to may
    depend on the calls before it. *)

Inductive GitCall : Type :=
| Access (file : str)            (* fs.access(path.resolve(repoPath, file)) *)
| Add (files : list str)         (* git.add(files) *)
| Commit (message : str).        (* git.commit(message) *)

Record Workspace : Type := {
  fs_access : list GitCall -> str -> result unit;
  git_add : list GitCall -> list str -> result unit;
  (* the [commit] field of the result: the hash *)
  git_commit : list GitCall -> str -> result str
}.

(** An asynchronous computation over a state [S]. *)
Definition Run (S A : Type) : Type := S -> result A * S.

Definition done {S A : Type} (a : A) : Run S A := fun s => (Resolved a, s).

Definition raise {S A : Type} (message : str) : Run S A :=
  fun s => (Rejected message, s).

Definition andThen {S A B : Type} (m : Run S A) (k : A -> Run S B)
  : Run S B :=
  fun s =>
    match m s with
    | (Resolved a, s') => k a s'
    | (Rejected e, s') => (Rejected e, s')
    end.

Definition catch {S A : Type} (m : Run S A) (h : str -> Run S A) : Run S A :=
  fun s =>
    match m s with
    | (Resolved a, s') => (Resolved a, s')
    | (Rejected e, s') => h e s'
    end.

Notation "x <~ m ;; k" := (andThen m (fun x => k))
  (at level 61, m at next level, right associativity).

(** A call on the working tree: recorded, then settled. *)
Definition call {A : Type} (c : GitCall)
  (outcome : list GitCall -> result A) : Run (list GitCall) A :=
  fun calls => (outcome calls, calls ++ [c]).

(** [commitAll(message)] *)
Definition commitAll (ws : Workspace) (message : str)
  : Run (list GitCall) str :=
  catch
    (_ <~ call (Add [lit "."]) (fun calls => git_add ws calls [lit "."]) ;;
     commit <~ call (Commit message)
                    (fun calls => git_commit ws calls message) ;;
     done commit)
    (fun error => raise (lit "Failed to commit all changes: " ++ error)).

(** [commitStaged(message)] *)
Definition commitStaged (ws : Workspace) (message : str)
  : Run (list GitCall) str :=
  catch
    (commit <~ call (Commit message)
                    (fun calls => git_commit ws calls message) ;;
     done commit)
    (fun error => raise (lit "Failed to commit staged changes: " ++ error)).

(** The loop of [commitFiles] that checks that each file exists. *)
Fixpoint validateFiles (ws : Workspace) (files : list str)
  : Run (list GitCall) unit :=
  match files with
  | [] => done tt
  | file :: rest =>
      _ <~ catch
             (call (Access file) (fun calls => fs_access ws calls file))
             (fun _ => raise (lit "File not found: " ++ file)) ;;
      validateFiles ws rest
  end.

(** [commitFiles(message, files)] *)
Definition commitFiles (ws : Workspace) (message : str) (files : list str)
  : Run (list GitCall) str :=
  catch
    ((* Validate files exist *)
     _ <~ validateFiles ws files ;;
     (* Add files *)
     _ <~ call (Add files) (fun calls => git_add ws calls files) ;;
     (* Commit *)
     commit <~ call (Commit message)
                    (fun calls => git_commit ws calls message) ;;
     done commit)
    (fun error => raise (lit "Failed to commit files: " ++ error)).

(* ================================================================== *)
(** ** Configuration ([config.manager.ts])

    The configuration file holds JSON.  It is kept as the value its
    content parses to: a configuration, or nothing usable (the read or the
    parse fails), or no file at all.  Writing a configuration makes the
    file hold it. *)

Module ConfigManager.

Inductive LlmProvider : Type :=
| Ollama (model name url : str)
| OpenAI (model name apiKey : str).

Definition providerName (p : LlmProvider) : str :=
  match p with
  | Ollama _ name _ => name
  | OpenAI _ name _ => name
  end.

Record Config : Type := {
  defaultFormat : option str;
  maxLength : option Z;
  providers : list LlmProvider;
  defaultProvider : str
}.

(** [{ providers: [], defaultProvider: '' }] *)
Definition defaults : Config :=
  {| defaultFormat := None; maxLength := None;
     providers := []; defaultProvider := [] |}.

Inductive ConfigFile : Type :=
| Missing
| Unreadable
| Holds (config : Config).

Record Disk : Type := {
  configFile : ConfigFile;
  (* whether [mkdir] and [writeFile] succeed *)
  writable : bool;
  (* what [console.warn] wrote *)
  warned : list str
}.

(** [fs.access(this.configPath)] *)
Definition access : Run Disk unit :=
  fun d =>
    match configFile d with
    | Missing => (Rejected (lit "ENOENT"), d)
    | _ => (Resolved tt, d)
    end.

(** [fs.mkdir(configDir, { recursive: true })] *)
Definition mkdir : Run Disk unit :=
  fun d => if writable d then (Resolved tt, d) else (Rejected (lit "EACCES"), d).

(** [fs.writeFile(this.configPath, JSON.stringify(config, null, 2))] *)
Definition writeFile (config : Config) : Run Disk unit :=
  fun d =>
    if writable d
    then (Resolved tt,
          {| configFile := Holds config; writable := writable d;
             warned := warned d |})
    else (Rejected (lit "EACCES"), d).

(** [JSON.parse(await fs.readFile(this.configPath, 'utf-8'))] *)
Definition readFile : Run Disk Config :=
  fun d =>
    match configFile d with
    | Holds config => (Resolved config, d)
    | Unreadable => (Rejected (lit "Unexpected token"), d)
    | Missing => (Rejected (lit "ENOENT"), d)
    end.

Definition warn (text : str) : Run Disk unit :=
  fun d =>
    (Resolved tt,
     {| configFile := configFile d; writable := writable d;
        warned := warned d ++ [text] |}).

(** [getConfig()] *)
Definition getConfig : Run Disk Config :=
  catch
    (found <~ catch (_ <~ access ;; done true) (fun _ => done false) ;;
     if negb found then
       (* Create config directory and file if they don't exist *)
       _ <~ mkdir ;;
       _ <~ writeFile defaults ;;
       done defaults
     else
       config <~ readFile ;;
       done config)
    (fun _ =>
       _ <~ warn (lit "Failed to read config file, using defaults") ;;
       done defaults).

(** The keys of [Config] with a value for each: [config[key] = value]. *)
Inductive Setting : Type :=
| SetDefaultFormat (value : option str)
| SetMaxLength (value : option Z)
| SetProviders (value : list LlmProvider)
| SetDefaultProvider (value : str).

Definition assign (config : Config) (setting : Setting) : Config :=
  match setting with
  | SetDefaultFormat v =>
      {| defaultFormat := v; maxLength := maxLength config;
         providers := providers config;
         defaultProvider := defaultProvider config |}
  | SetMaxLength v =>
      {| defaultFormat := defaultFormat config; maxLength := v;
         providers := providers config;
         defaultProvider := defaultProvider config |}
  | SetProviders v =>
      {| defaultFormat := defaultFormat config;
         maxLength := maxLength config;
         providers := v;
         defaultProvider := defaultProvider config |}
  | SetDefaultProvider v =>
      {| defaultFormat := defaultFormat config;
         maxLength := maxLength config;
         providers := providers config;
         defaultProvider := v |}
  end.

(** [setConfig(key, value)] *)
Definition setConfig (setting : Setting) : Run Disk unit :=
  config <~ getConfig ;;
  let config := assign config setting in
  (* Ensure config directory exists *)
  _ <~ mkdir ;;
  writeFile config.

(** [getLlmProviders()] *)
Definition getLlmProviders : Run Disk (list LlmProvider) :=
  config <~ getConfig ;;
  done (providers config).

(** [getDefaultProvider()]; [None] is [null]. *)
Definition getDefaultProvider : Run Disk (option LlmProvider) :=
  config <~ getConfig ;;
  (* No providers configured *)
  if arrayLength (providers config) =? 0 then done None
  else
    (* Look for explicitly set default provider *)
    let found :=
      if negb (str_eqb (defaultProvider config) [])
      then find (fun p => str_eqb (providerName p) (defaultProvider config))
                (providers config)
      else None in
    match found with
    | Some defaultProvider => done (Some defaultProvider)
    | None =>
        (* Return first available provider if no valid default is set *)
        done (nth_error (providers config) 0)
    end.

End ConfigManager.

(* ================================================================== *)
(** ** Display of validation results ([error-handler.ts]) *)

Definition BULLET : char := 8226%N.            (* U+2022 *)
Definition CROSS_MARK : str := [10060%N].       (* U+274C *)
Definition WARNING_SIGN : str := [9888%N; 65039%N].   (* U+26A0 U+FE0F *)
Definition INFORMATION : str := [8505%N; 65039%N].    (* U+2139 U+FE0F *)

(** [formatValidationErrors(errors)] *)
Definition formatValidationErrors (errors : list str) : str :=
  if arrayLength errors =? 0 then []
  else join [NL]
         (map (fun error => lit "   " ++ [BULLET] ++ lit " " ++ error) errors).

(** [formatSuggestions(suggestions)] *)
Definition formatSuggestions (suggestions : list Suggestion.t) : str :=
  if arrayLength suggestions =? 0 then []
  else join [NL]
         (map (fun suggestion =>
                 let icon :=
                   if str_eqb (Suggestion.type suggestion) (lit "error")
                   then CROSS_MARK
                   else if str_eqb (Suggestion.type suggestion) (lit "warning")
                   then WARNING_SIGN
                   else INFORMATION in
                 lit "   " ++ icon ++ lit " " ++ Suggestion.message suggestion)
              suggestions).

(* ================================================================== *)
(** ** Vocabulary of the properties *)

(** The language of a pattern. *)
Inductive lang : regex -> str -> Prop :=
| lang_eps : lang Eps []
| lang_cls (p : char -> bool) (c : char) : p c = true -> lang (Cls p) [c]
| lang_seq (r s : regex) (u v : str) :
    lang r u -> lang s v -> lang (Seq r s) (u ++ v)
| lang_alt_l (r s : regex) (u : str) : lang r u -> lang (Alt r s) u
| lang_alt_r (r s : regex) (u : str) : lang s u -> lang (Alt r s) u
| lang_star_nil (r : regex) : lang (Star r) []
| lang_star_cons (r : regex) (u v : str) :
    lang r u -> lang (Star r) v -> lang (Star r) (u ++ v).

(** A scope in parentheses: [(] , one or more characters that are not line
    terminators, [)]. *)
Definition isScope (scope : str) : Prop :=
  exists inner,
    scope = LPAREN :: inner ++ [RPAREN]
    /\ inner <> []
    /\ forallb (fun c => negb (isLineTerminator c)) inner = true.

(** The shape [type(scope): description...] of a conventional first line:
    one of the commit types, an optional scope, a colon, a space and at
    least one character that is not a line terminator. *)
Definition conventionalShape (firstLine : str) : Prop :=
  exists type scope d rest,
    firstLine = type ++ scope ++ lit ": " ++ d :: rest
    /\ In type commitTypes
    /\ (scope = [] \/ isScope scope)
    /\ isLineTerminator d = false.

(** No two neighbours of [s] are both [c]. *)
Fixpoint noTwo (c : char) (s : str) : bool :=
  match s with
  | x :: ((y :: _) as s') => negb (char_eqb x c && char_eqb y c) && noTwo c s'
  | _ => true
  end.

(** No three neighbours of [s] are all [c]. *)
Fixpoint noThree (c : char) (s : str) : bool :=
  match s with
  | x :: ((y :: z :: _) as s') =>
      negb (char_eqb x c && char_eqb y c && char_eqb z c) && noThree c s'
  | _ => true
  end.

(** [p] is a run of consecutive characters of [s]. *)
Definition partOf (p s : str) : Prop := exists a b, s = a ++ p ++ b.

(** The configuration in force: what the file holds, the defaults when
    there is no usable file. *)
Definition configInForce (d : ConfigManager.Disk) : ConfigManager.Config :=
  match ConfigManager.configFile d with
  | ConfigManager.Holds config => config
  | _ => ConfigManager.defaults
  end.

(** The suggestions made from the validation of the message. *)
Definition errorSuggestion (error : str) : Suggestion.t :=
  {| Suggestion.type := lit "error"; Suggestion.message := error |}.

Definition warningSuggestion (warning : str) : Suggestion.t :=
  {| Suggestion.type := lit "warning"; Suggestion.message := warning |}.

(* ================================================================== *)
(** * Properties *)

(** ** The model on the scenarios of the specification *)

Section Scenarios.

Example postProcessMessage_markdown :
  postProcessMessage
    (lit "  **feat**: add `x`  and   more *it* ```code```"
     ++ NL :: NL :: NL :: NL :: lit "body")
    noOptions
  = lit "feat: add x and more it " ++ NL :: NL :: lit "body".
Proof. vm_compute. reflexivity. Qed.

Example validateMessage_conventional :
  validateMessage (lit "feat(auth): add OAuth2 integration") conventional
  = {| valid := true; errors := []; warnings := [] |}.
Proof. vm_compute. reflexivity. Qed.

Example validateMessage_mood_and_blank_line :
  validateMessage (lit "Added things" ++ NL :: lit "body") conventional
  = {| valid := false; errors := [errFormat];
       warnings := [warnMood; warnBlankLine] |}.
Proof. vm_compute. reflexivity. Qed.

Example conventionalRegex_samples :
  map (test conventionalRegex)
      [lit "fix: x"; lit "feat(a)(b): x"; lit "feat: "; lit "feat():  ";
       lit "feature: x"; lit "ci(build): run"]
  = [true; true; false; false; false; true].
Proof. vm_compute. reflexivity. Qed.

Example getSuggestions_deleted_file :
  In suggestBreaking
     (getSuggestions (lit "fix: remove old module")
        {| added := []; modified := []; deleted := [lit "old.ts"];
           untracked := []; conflicted := [];
           hasChanges := fun _ => true |}
        (DiffText [])).
Proof. vm_compute. left. reflexivity. Qed.

End Scenarios.

(** ** Strings *)

Section StringFacts.

Lemma len_nonneg (s : str) : 0 <= len s.
Proof. unfold len. lia. Qed.

Lemma len_app (a b : str) : len (a ++ b) = len a + len b.
Proof. unfold len. rewrite length_app. lia. Qed.

Lemma char_eqb_eq (a b : char) : char_eqb a b = true <-> a = b.
Proof. apply N.eqb_eq. Qed.

Lemma char_eqb_refl (a : char) : char_eqb a a = true.
Proof. apply N.eqb_refl. Qed.

Lemma substring_0 (s : str) (b : Z) :
  substring s 0 b = firstn (Z.to_nat b) s.
Proof.
  unfold substring, clamp.
  pose proof (len_nonneg s) as Hs.
  replace (Z.max 0 (Z.min 0 (len s))) with 0 by lia.
  set (e := Z.max 0 (Z.min b (len s))).
  replace (Z.min 0 e) with 0 by lia.
  replace (Z.max 0 e - 0) with e by lia.
  cbn [Z.to_nat skipn].
  destruct (Z_le_gt_dec b (len s)) as [Hb | Hb].
  - f_equal. lia.
  - rewrite !firstn_all2; unfold len in *; try lia. reflexivity.
Qed.

Lemma len_firstn (n : nat) (s : str) :
  len (firstn n s) = Z.min (Z.of_nat n) (len s).
Proof. unfold len. rewrite length_firstn. lia. Qed.

Lemma len_substring_0 (s : str) (b : Z) :
  len (substring s 0 b) = Z.max 0 (Z.min b (len s)).
Proof. rewrite substring_0, len_firstn. pose proof (len_nonneg s). lia. Qed.

Lemma lastIndexOf_range (s : str) (c : char) :
  -1 <= lastIndexOf s c < len s.
Proof.
  induction s as [| x s IH]; cbn [lastIndexOf].
  - unfold len. simpl. lia.
  - replace (len (x :: s)) with (len s + 1) by (unfold len; simpl; lia).
    destruct (0 <=? lastIndexOf s c) eqn:E.
    + lia.
    + pose proof (len_nonneg s). destruct (char_eqb x c); lia.
Qed.

Lemma lastIndexOf_absent (s : str) (c : char) :
  ~ In c s -> lastIndexOf s c = -1.
Proof.
  induction s as [| x s IH]; intros Hn; cbn [lastIndexOf].
  - reflexivity.
  - rewrite IH by (intros H; apply Hn; now right).
    cbn. destruct (char_eqb x c) eqn:E; [| reflexivity].
    apply char_eqb_eq in E. exfalso. apply Hn. now left.
Qed.

Lemma lastIndexOf_app_absent (a b : str) (c : char) :
  ~ In c b -> lastIndexOf (a ++ b) c = lastIndexOf a c.
Proof.
  intros Hb. induction a as [| x a IH]; cbn [app lastIndexOf].
  - now apply lastIndexOf_absent.
  - now rewrite IH.
Qed.

Lemma lastIndexOf_app_present (a b : str) (c : char) :
  0 <= lastIndexOf b c -> lastIndexOf (a ++ b) c = len a + lastIndexOf b c.
Proof.
  intros Hb. induction a as [| x a IH]; cbn [app lastIndexOf].
  - unfold len. simpl. lia.
  - rewrite IH. pose proof (len_nonneg a).
    replace (len (x :: a)) with (len a + 1) by (unfold len; simpl; lia).
    destruct (0 <=? len a + lastIndexOf b c) eqn:E; lia.
Qed.

(** The offset found is an occurrence... *)
Lemma lastIndexOf_nth (s : str) (c : char) :
  0 <= lastIndexOf s c ->
  nth_error s (Z.to_nat (lastIndexOf s c)) = Some c.
Proof.
  induction s as [| x s IH]; cbn [lastIndexOf].
  - lia.
  - destruct (0 <=? lastIndexOf s c) eqn:E.
    + intros _. apply Z.leb_le in E.
      replace (Z.to_nat (lastIndexOf s c + 1))
        with (S (Z.to_nat (lastIndexOf s c))) by lia.
      cbn [nth_error]. now apply IH.
    + destruct (char_eqb x c) eqn:Ec; [| lia].
      intros _. apply char_eqb_eq in Ec. now subst.
Qed.

(** ...and no occurrence lies behind it. *)
Lemma lastIndexOf_last (s : str) (c : char) (j : nat) :
  nth_error s j = Some c -> Z.of_nat j <= lastIndexOf s c.
Proof.
  revert j. induction s as [| x s IH]; intros j Hj.
  - destruct j; discriminate.
  - cbn [lastIndexOf]. destruct j as [| j]; cbn [nth_error] in Hj.
    + injection Hj as ->. rewrite char_eqb_refl.
      pose proof (lastIndexOf_range s c).
      destruct (0 <=? lastIndexOf s c) eqn:E; lia.
    + specialize (IH j Hj).
      destruct (0 <=? lastIndexOf s c) eqn:E; [lia |].
      apply Z.leb_gt in E. lia.
Qed.

Lemma In_firstn (n : nat) (s : str) (c : char) :
  In c (firstn n s) -> In c s.
Proof.
  intros H. rewrite <- (firstn_skipn n s). apply in_or_app. now left.
Qed.

End StringFacts.

(** ** Diff truncation *)

Section TruncateDiff.

Lemma marker_no_newline : ~ In NL marker.
Proof.
  intros H. vm_compute in H.
  repeat (destruct H as [H | H]; [discriminate H |]). exact H.
Qed.

Lemma len_truncationSuffix : len truncationSuffix = len marker + 2.
Proof. reflexivity. Qed.

Lemma len_marker : len marker = 24.
Proof. reflexivity. Qed.

Lemma lastNewlineAt_lastIndexOf (d : str) (m k : Z) :
  lastNewlineAt d m k -> lastIndexOf (substring d 0 m) NL = k.
Proof.
  intros (Hk & Hnth & Hlast). rewrite substring_0.
  set (t := firstn (Z.to_nat m) d).
  assert (Ht : nth_error t (Z.to_nat k) = Some NL).
  { unfold t. rewrite nth_error_firstn.
    replace (Z.to_nat k <? Z.to_nat m)%nat with true; [exact Hnth |].
    symmetry. apply Nat.ltb_lt. lia. }
  pose proof (lastIndexOf_last _ _ _ Ht) as Hle.
  assert (H0 : 0 <= lastIndexOf t NL) by lia.
  pose proof (lastIndexOf_nth t NL H0) as Hocc.
  pose proof (lastIndexOf_range t NL) as Hr.
  assert (Hlt : len t <= m) by (unfold t; rewrite len_firstn; lia).
  destruct (Z.eq_dec (lastIndexOf t NL) k) as [-> | Hne]; [reflexivity |].
  exfalso. apply (Hlast (lastIndexOf t NL)); [lia |].
  unfold t in Hocc |- *. rewrite nth_error_firstn in Hocc.
  destruct (_ <? _)%nat; [exact Hocc | discriminate].
Qed.

Lemma lastIndexOf_lastNewlineAt (d : str) (m : Z) :
  0 <= lastIndexOf (substring d 0 m) NL ->
  lastNewlineAt d m (lastIndexOf (substring d 0 m) NL).
Proof.
  intros H0. pose proof (lastIndexOf_nth _ _ H0) as Hocc.
  pose proof (lastIndexOf_range (substring d 0 m) NL) as Hr.
  pose proof (len_substring_0 d m) as Hl.
  rewrite substring_0 in *.
  set (k := lastIndexOf (firstn (Z.to_nat m) d) NL) in *.
  repeat split; try lia.
  - rewrite nth_error_firstn in Hocc.
    destruct (_ <? _)%nat; [exact Hocc | discriminate].
  - intros j Hj Hnl.
    assert (Hin : nth_error (firstn (Z.to_nat m) d) (Z.to_nat j) = Some NL).
    { rewrite nth_error_firstn.
      replace (Z.to_nat j <? Z.to_nat m)%nat with true; [exact Hnl |].
      symmetry. apply Nat.ltb_lt. lia. }
    apply lastIndexOf_last in Hin. fold k in Hin. lia.
Qed.

Lemma truncateDiff_over (d : str) (m : Z) :
  m < len d ->
  truncateDiff d m =
    if 4 * m <? 5 * lastIndexOf (substring d 0 m) NL
    then substring (substring d 0 m) 0 (lastIndexOf (substring d 0 m) NL)
         ++ truncationSuffix
    else substring d 0 m ++ truncationSuffix.
Proof.
  intros H. unfold truncateDiff.
  replace (len d <=? m) with false; [reflexivity |].
  symmetry. apply Z.leb_gt. exact H.
Qed.

(** C7: for every diff and every budget [m >= 1], the truncated diff is at
    most [m], plus the length of the marker, plus 2 characters long. *)
Theorem truncateDiff_length_bound (d : str) (m : Z) :
  1 <= m -> len (truncateDiff d m) <= m + len marker + 2.
Proof.
  intros Hm. unfold truncateDiff.
  destruct (len d <=? m) eqn:E.
  - apply Z.leb_le in E. rewrite len_marker. lia.
  - pose proof (lastIndexOf_range (substring d 0 m) NL) as Hr.
    pose proof (len_nonneg d) as Hd.
    destruct (4 * m <? 5 * _);
      rewrite len_app, len_truncationSuffix, ?len_substring_0; lia.
Qed.

Lemma truncateDiff_length_bound_witness :
  1 <= 11
  /\ len (truncateDiff (lit "aaaaaaaaa" ++ NL :: lit "bbb") 11)
     <= 11 + len marker + 2.
Proof.
  split; [lia | apply truncateDiff_length_bound; lia].
Defined.

(** C6, as the code has it: for a diff longer than the budget, when the last
    newline of the first [m] characters lies strictly beyond [0.8 * m] the
    diff is cut at that newline, otherwise after exactly [m] characters; in
    both cases two newlines and the marker follow. *)
Theorem truncateDiff_cut (d : str) (m : Z) :
  m < len d ->
  (forall k, lastNewlineAt d m k -> 4 * m < 5 * k ->
     truncateDiff d m = firstn (Z.to_nat k) d ++ NL :: NL :: marker)
  /\ ((forall k, lastNewlineAt d m k -> 5 * k <= 4 * m) ->
      truncateDiff d m = firstn (Z.to_nat m) d ++ NL :: NL :: marker
      /\ (0 <= m -> len (firstn (Z.to_nat m) d) = m)).
Proof.
  intros Hlen. rewrite (truncateDiff_over d m Hlen). split.
  - intros k Hk Hgt. pose proof Hk as (Hrange & _).
    rewrite (lastNewlineAt_lastIndexOf d m k Hk).
    replace (4 * m <? 5 * k) with true by (symmetry; apply Z.ltb_lt; lia).
    rewrite !substring_0, firstn_firstn.
    replace (Nat.min (Z.to_nat k) (Z.to_nat m)) with (Z.to_nat k) by lia.
    reflexivity.
  - intros Hall. split.
    + pose proof (lastIndexOf_range (substring d 0 m) NL) as Hr.
      destruct (Z_lt_ge_dec (lastIndexOf (substring d 0 m) NL) 0) as [Hneg | Hpos].
      * destruct (4 * m <? 5 * _) eqn:E.
        -- apply Z.ltb_lt in E.
           rewrite !substring_0.
           replace (Z.to_nat m) with 0%nat by lia. reflexivity.
        -- now rewrite substring_0.
      * assert (H0 : 0 <= lastIndexOf (substring d 0 m) NL) by lia.
        pose proof (Hall _ (lastIndexOf_lastNewlineAt d m H0)) as Hle.
        replace (4 * m <? 5 * _) with false
          by (symmetry; apply Z.ltb_ge; lia).
        now rewrite substring_0.
    + intros Hm. rewrite len_firstn. lia.
Qed.

Lemma truncateDiff_cut_witness :
  let d := lit "aaaaaaaaa" ++ NL :: lit "bbb" in
  let e := lit "aaaa" ++ NL :: lit "bbb" in
  (11 < len d
   /\ truncateDiff d 11 = firstn 9 d ++ NL :: NL :: marker)
  /\ (5 < len e
      /\ truncateDiff e 5 = firstn 5 e ++ NL :: NL :: marker).
Proof.
  split.
  - split; [reflexivity |].
    refine (proj1 (truncateDiff_cut _ 11 _) 9 _ _); [reflexivity | | lia].
    split; [lia |]. split; [reflexivity |].
    intros j Hj. assert (j = 10) as -> by lia. discriminate.
  - split; [reflexivity |].
    refine (proj1 (proj2 (truncateDiff_cut _ 5 _) _)); [reflexivity |].
    intros k (Hk & Hnth & _).
    assert (k = 0 \/ k = 1 \/ k = 2 \/ k = 3 \/ k = 4) as Hcases by lia.
    destruct Hcases as [-> | [-> | [-> | [-> | ->]]]];
      solve [discriminate Hnth | lia].
Defined.

(** C6 as stated fails at the boundary: in ["aaaa\nbbb"] with budget 5 the
    last newline of the first 5 characters sits at offset 4, which is
    [0.8 * 5]; the code cuts after 5 characters, not at the newline. *)
Lemma truncateDiff_cut_counterexample :
  let d := lit "aaaa" ++ NL :: lit "bbb" in
  5 < len d
  /\ lastNewlineAt d 5 4
  /\ 4 * 5 <= 5 * 4
  /\ truncateDiff d 5 = lit "aaaa" ++ NL :: NL :: NL :: marker
  /\ truncateDiff d 5 <> lit "aaaa" ++ NL :: NL :: marker.
Proof.
  cbv zeta. split; [reflexivity |]. split.
  - split; [lia |]. split; [reflexivity |]. intros j Hj. lia.
  - split; [lia |]. split; [reflexivity |].
    intros H. apply (f_equal len) in H. vm_compute in H. discriminate H.
Qed.

Lemma lastIndexOf_two_newlines (j : nat) :
  lastIndexOf (NL :: NL :: firstn j marker) NL = 1.
Proof.
  cbn [lastIndexOf].
  rewrite (lastIndexOf_absent (firstn j marker) NL).
  - reflexivity.
  - intros H. apply marker_no_newline. eapply In_firstn. exact H.
Qed.

(** Truncating once more a diff that was cut at the newline [k]. *)
Lemma truncateDiff_again_newline (p : str) (m : Z) :
  let k := len p in
  4 * m < 5 * k -> k < m -> m < k + len marker + 2 ->
  truncateDiff (p ++ truncationSuffix) m =
    if k + 2 <=? m then p ++ NL :: truncationSuffix
    else p ++ truncationSuffix.
Proof.
  intros k Hgt Hkm Hfit. pose proof (len_nonneg p) as Hp. fold k in Hp.
  rewrite truncateDiff_over
    by (rewrite len_app, len_truncationSuffix; fold k; lia).
  rewrite !substring_0, firstn_app.
  rewrite (@firstn_all2 _ (Z.to_nat m) p) by (unfold k, len in *; lia).
  replace (Z.to_nat m - List.length p)%nat with (Z.to_nat (m - k))
    by (unfold k, len; lia).
  destruct (k + 2 <=? m) eqn:E.
  - apply Z.leb_le in E.
    replace (Z.to_nat (m - k)) with (S (S (Z.to_nat (m - k - 2)))) by lia.
    unfold truncationSuffix at 1 2. cbn [firstn].
    rewrite lastIndexOf_app_present; rewrite lastIndexOf_two_newlines; [| lia].
    fold k.
    replace (4 * m <? 5 * (k + 1)) with true
      by (symmetry; apply Z.ltb_lt; lia).
    rewrite firstn_app.
    rewrite (@firstn_all2 _ _ p) by (unfold k, len in *; lia).
    replace (Z.to_nat (k + 1) - List.length p)%nat with 1%nat
      by (unfold k, len; lia).
    cbn [firstn]. rewrite <- app_assoc. reflexivity.
  - apply Z.leb_gt in E.
    replace (Z.to_nat (m - k)) with 1%nat by lia.
    unfold truncationSuffix at 1 2. cbn [firstn].
    rewrite lastIndexOf_app_present by (cbn; lia).
    replace (lastIndexOf [NL] NL) with 0 by reflexivity.
    rewrite Z.add_0_r. fold k.
    replace (4 * m <? 5 * k) with true by (symmetry; apply Z.ltb_lt; lia).
    rewrite firstn_app.
    rewrite (@firstn_all2 _ _ p) by (unfold k, len in *; lia).
    replace (Z.to_nat k - List.length p)%nat with 0%nat
      by (unfold k, len; lia).
    cbn [firstn]. rewrite app_nil_r. reflexivity.
Qed.

(** Truncating once more a diff that was cut after [m] characters. *)
Lemma truncateDiff_again_raw (d : str) (m : Z) :
  m < len d ->
  truncateDiff (substring d 0 m ++ truncationSuffix) m =
  truncateDiff d m.
Proof.
  intros Hlen. pose proof (len_nonneg (substring d 0 m)) as Ht.
  pose proof (len_substring_0 d m) as Hl.
  assert (Hsame : substring (substring d 0 m ++ truncationSuffix) 0 m
                  = substring d 0 m).
  { rewrite !substring_0, firstn_app, firstn_firstn, Nat.min_id.
    rewrite substring_0 in Hl.
    replace (Z.to_nat m - List.length (firstn (Z.to_nat m) d))%nat
      with 0%nat by (unfold len in *; lia).
    cbn [firstn]. apply app_nil_r. }
  rewrite (truncateDiff_over d m Hlen).
  rewrite truncateDiff_over
    by (rewrite len_app, len_truncationSuffix, len_marker; lia).
  rewrite Hsame. reflexivity.
Qed.

(** C2, as the code has it: truncating twice is the same as truncating once
    except when the first truncation cut at a newline that lies at least
    two characters before the budget and whose cut, with the two newlines
    and the marker appended, still exceeds the budget; there the second
    truncation keeps one newline more. *)
Theorem truncateDiff_idempotent_iff (d : str) (m : Z) :
  let k := lastIndexOf (substring d 0 m) NL in
  truncateDiff (truncateDiff d m) m = truncateDiff d m
  <-> ~ (m < len d /\ 4 * m < 5 * k /\ k + 2 <= m
         /\ m < k + len marker + 2).
Proof.
  intros k.
  destruct (Z_lt_ge_dec m (len d)) as [Hlen | Hfit].
  2:{ split; [intros _ (H & _); lia | intros _].
      unfold truncateDiff.
      replace (len d <=? m) with true by (symmetry; apply Z.leb_le; lia).
      replace (len d <=? m) with true by (symmetry; apply Z.leb_le; lia).
      reflexivity. }
  pose proof (lastIndexOf_range (substring d 0 m) NL) as Hr. fold k in Hr.
  pose proof (len_substring_0 d m) as Hl.
  rewrite (truncateDiff_over d m Hlen). fold k.
  destruct (4 * m <? 5 * k) eqn:E.
  2:{ apply Z.ltb_ge in E. split; [intros _ (_ & H & _); lia | intros _].
      rewrite (truncateDiff_again_raw d m Hlen).
      rewrite (truncateDiff_over d m Hlen). fold k.
      replace (4 * m <? 5 * k) with false by (symmetry; apply Z.ltb_ge; lia).
      reflexivity. }
  apply Z.ltb_lt in E.
  set (p := substring (substring d 0 m) 0 k).
  assert (Hp : len p = Z.max 0 k).
  { unfold p. rewrite len_substring_0. lia. }
  destruct (Z_lt_ge_dec m 0) as [Hneg | Hpos].
  { (* a negative budget keeps nothing but the marker *)
    split; [intros _ (_ & _ & H & _); lia | intros _].
    assert (Hnil : p = []).
    { destruct p; [reflexivity |]. unfold len in Hp. simpl in Hp. lia. }
    rewrite Hnil. cbn [app].
    rewrite truncateDiff_over by (rewrite len_truncationSuffix, len_marker; lia).
    rewrite !substring_0.
    replace (Z.to_nat m) with 0%nat by lia. cbn [firstn lastIndexOf].
    replace (4 * m <? 5 * -1) with true by (symmetry; apply Z.ltb_lt; lia).
    reflexivity. }
  assert (Hk : len p = k) by lia.
  destruct (Z_le_gt_dec (k + len marker + 2) m) as [Hshort | Hlong].
  { (* the cut diff fits the budget and is returned as it is *)
    split; [intros _ (_ & _ & _ & H); lia | intros _].
    unfold truncateDiff at 1.
    replace (len (p ++ truncationSuffix) <=? m) with true; [reflexivity |].
    symmetry. apply Z.leb_le.
    rewrite len_app, len_truncationSuffix. lia. }
  rewrite truncateDiff_again_newline by lia. rewrite Hk.
  destruct (k + 2 <=? m) eqn:E2.
  - apply Z.leb_le in E2. split; [| intros H; exfalso; apply H; lia].
    intros Heq. apply (f_equal len) in Heq.
    rewrite !len_app in Heq.
    replace (len (NL :: truncationSuffix)) with (len truncationSuffix + 1)
      in Heq by reflexivity.
    lia.
  - apply Z.leb_gt in E2. split; [intros _ (_ & _ & H & _); lia | reflexivity].
Qed.

(** C2 as stated fails: with budget 11, ["aaaaaaaaa\nbbb"] is cut at the
    newline at offset 9; truncating the result again keeps the first of the
    two appended newlines and appends the suffix once more. *)
Lemma truncateDiff_idempotent_counterexample :
  let d := lit "aaaaaaaaa" ++ NL :: lit "bbb" in
  truncateDiff d 11 = lit "aaaaaaaaa" ++ NL :: NL :: marker
  /\ truncateDiff (truncateDiff d 11) 11
     = lit "aaaaaaaaa" ++ NL :: NL :: NL :: marker
  /\ truncateDiff (truncateDiff d 11) 11 <> truncateDiff d 11.
Proof.
  cbv zeta. split; [reflexivity |]. split; [reflexivity |].
  intros H. apply (f_equal len) in H. vm_compute in H. discriminate H.
Qed.

End TruncateDiff.

(** ** Message validation *)

Section Validate.

(** Split on every remaining test of the function at hand. *)
Ltac branches :=
  repeat match goal with
         | |- context [if ?c then _ else _] =>
             lazymatch type of c with bool => destruct c end
         end;
  reflexivity.

Lemma str_eqb_eq (a b : str) : str_eqb a b = true <-> a = b.
Proof.
  revert b. induction a as [| x a IH]; intros [| y b]; cbn [str_eqb];
    try (split; [discriminate | discriminate]); [tauto |].
  rewrite andb_true_iff, char_eqb_eq, IH.
  split; [intros [-> ->]; reflexivity | intros H; now inversion H].
Qed.

Lemma str_eqb_refl (a : str) : str_eqb a a = true.
Proof. now apply str_eqb_eq. Qed.

(** The flag is a function of the list of errors alone. *)
Lemma valid_reads_errors (message format : str) :
  valid (validateMessage message format)
  = match errors (validateMessage message format) with
    | [] => true
    | _ :: _ => false
    end.
Proof.
  unfold validateMessage. branches.
Qed.

(** C4: the result of [validateMessage] has [valid = false] exactly when
    [errors] is not empty, and two results with the same errors have the
    same [valid], whatever their warnings. *)
Theorem validateMessage_valid_iff_errors (message format : str) :
  let r := validateMessage message format in
  (valid r = false <-> errors r <> [])
  /\ (forall message' format',
        errors (validateMessage message' format') = errors r ->
        valid (validateMessage message' format') = valid r).
Proof.
  cbv zeta. split.
  - rewrite valid_reads_errors.
    destruct (errors (validateMessage message format)).
    + split; [discriminate | intros H; now elim H].
    + split; [intros _; discriminate | reflexivity].
  - intros message' format' H. rewrite !valid_reads_errors, H. reflexivity.
Qed.

(** Two messages without errors, one with two warnings and one with none:
    both are valid. *)
Lemma validateMessage_valid_iff_errors_witness :
  warnings (validateMessage (lit "feat: added things" ++ NL :: lit "body")
                            conventional)
    = [warnMood; warnBlankLine]
  /\ valid (validateMessage (lit "feat: added things" ++ NL :: lit "body")
                           conventional)
     = valid (validateMessage (lit "feat: add things") conventional).
Proof.
  split; [reflexivity |].
  apply (proj2 (validateMessage_valid_iff_errors
                  (lit "feat: add things") conventional)).
  reflexivity.
Defined.

(** C5: a first line of more than 72 characters makes the message invalid;
    a first line of at most 50 characters that, under the conventional
    format, matches the pattern draws neither the length error nor the
    format error. *)
Theorem validateMessage_length_format (message format : str) :
  let firstLine := first (split message NL) in
  let r := validateMessage message format in
  (72 < len firstLine -> valid r = false)
  /\ (len firstLine <= 50 ->
      (format = conventional -> test conventionalRegex firstLine = true) ->
      ~ In errTooLong (errors r) /\ ~ In errFormat (errors r)).
Proof.
  cbv zeta. split.
  - intros Hlong. rewrite valid_reads_errors. unfold validateMessage.
    replace (72 <? len (first (split message NL))) with true
      by (symmetry; apply Z.ltb_lt; exact Hlong).
    branches.
  - intros Hshort Hfmt.
    assert (Hnone : errors (validateMessage message format) = []).
    { unfold validateMessage.
      replace (72 <? len (first (split message NL))) with false
        by (symmetry; apply Z.ltb_ge; lia).
      replace (50 <? len (first (split message NL))) with false
        by (symmetry; apply Z.ltb_ge; lia).
      destruct (str_eqb format conventional) eqn:Ef.
      - apply str_eqb_eq in Ef. rewrite (Hfmt Ef). cbn [negb]. branches.
      - branches. }
    rewrite Hnone. split; intros [].
Qed.

Lemma validateMessage_length_format_witness :
  valid (validateMessage
           (lit "feat: a subject line that runs on and on until it is well past the upper limit")
           conventional) = false
  /\ (~ In errTooLong
         (errors (validateMessage (lit "feat(auth): add OAuth2 integration")
                                  conventional))
      /\ ~ In errFormat
           (errors (validateMessage (lit "feat(auth): add OAuth2 integration")
                                    conventional))).
Proof.
  split.
  - apply (proj1 (validateMessage_length_format _ conventional)).
    vm_compute. reflexivity.
  - apply (proj2 (validateMessage_length_format _ conventional)).
    + vm_compute. discriminate.
    + intros _. vm_compute. reflexivity.
Defined.

End Validate.

(** ** Prompt building *)

Section BuildPrompt.

(** C9: for the status with the one added file [a.ts], the diff
    [+export function f(){}] and the options
    [{format: 'conventional', maxLength: 50}], the prompt has the line
    [- Added: a.ts] and an instruction line that mentions [50 characters]. *)
Theorem buildPrompt_scenario (conflicted : list str)
  (hasChanges : unit -> bool) :
  let status :=
    {| added := [lit "a.ts"]; modified := []; deleted := [];
       untracked := []; conflicted := conflicted;
       hasChanges := hasChanges |} in
  let options :=
    {| format := Some conventional; maxLength := Some 50;
       maxDiffLength := None |} in
  let prompt := buildPrompt status (lit "+export function f(){}") options in
  In (lit "- Added: a.ts") (split prompt NL)
  /\ In (lit "- Keep the first line under 50 characters") (split prompt NL)
  /\ includes (lit "- Keep the first line under 50 characters")
              (lit "50 characters") = true.
Proof.
  cbv zeta. split; [| split].
  - vm_compute. do 3 right. left. reflexivity.
  - vm_compute. do 10 right. left. reflexivity.
  - vm_compute. reflexivity.
Qed.

End BuildPrompt.

(** ** Suggestions *)

Section Suggestions.

(** Find an element in a list built by appending. *)
Ltac in_app :=
  solve [ left; reflexivity
        | apply in_or_app; left; in_app
        | apply in_or_app; right; in_app ].

Lemma hasDocChanges_false (status : GitStatus) :
  (forall file, In file (added status ++ modified status) ->
     test docFileRegex file = false
     /\ includes (toLowerCase file) (lit "readme") = false) ->
  hasDocChanges status = false.
Proof.
  intros H. unfold hasDocChanges.
  destruct (existsb _ _) eqn:E; [| reflexivity].
  apply existsb_exists in E as (file & Hin & Hdoc).
  destruct (H file Hin) as (H1 & H2). rewrite H1, H2 in Hdoc. discriminate.
Qed.

(** For a diff handed over as one string: when the text contains [export]
    or [public] and no added or modified path ends in [.md], [.rst] or
    [.txt] (in any case) or contains [readme] (in any case), the
    suggestions include the [info] suggestion to update the
    documentation. *)
Theorem getSuggestions_documentation (message : str) (status : GitStatus)
  (text : str) :
  includes text (lit "export") = true \/ includes text (lit "public") = true ->
  (forall file, In file (added status ++ modified status) ->
     test docFileRegex file = false
     /\ includes (toLowerCase file) (lit "readme") = false) ->
  Suggestion.type suggestDocs = lit "info"
  /\ In suggestDocs (getSuggestions message status (DiffText text)).
Proof.
  intros Hapi Hdocs. split; [reflexivity |].
  apply hasDocChanges_false in Hdocs.
  assert (Hpub : hasPublicAPIChanges (DiffText text) = true).
  { unfold hasPublicAPIChanges, diffIncludes.
    destruct Hapi as [-> | ->]; [reflexivity | apply orb_true_r]. }
  unfold getSuggestions. rewrite Hpub, Hdocs. cbn [negb andb].
  repeat match goal with
         | |- context [if ?c then _ else _] =>
             lazymatch type of c with bool => destruct c end
         end;
    in_app.
Qed.

Lemma getSuggestions_documentation_witness :
  Suggestion.type suggestDocs = lit "info"
  /\ In suggestDocs
       (getSuggestions (lit "feat: add f")
          {| added := [lit "a.ts"]; modified := []; deleted := [];
             untracked := []; conflicted := [];
             hasChanges := fun _ => true |}
          (DiffText (lit "+export function f(){}"))).
Proof.
  apply getSuggestions_documentation.
  - left. vm_compute. reflexivity.
  - intros file [<- | []]. vm_compute. split; reflexivity.
Defined.

(** The same diff handed over as an array of lines, the declared type of
    the parameter: [includes] then looks for an element equal to the
    needle, and the line is not one. *)
Fact getSuggestions_documentation_lines :
  ~ In suggestDocs
      (getSuggestions (lit "feat: add f")
         {| added := [lit "a.ts"]; modified := []; deleted := [];
            untracked := []; conflicted := [];
            hasChanges := fun _ => true |}
         (DiffLines [lit "+export function f(){}"])).
Proof.
  vm_compute. intros [H | []]. discriminate H.
Qed.

(** C8 fails on the code.  The parameter [diff] is declared [string[]], and
    on an array [includes] looks for an element equal to the needle, not
    for a substring.  The text of the one-line diff
    [+export function f(){}] contains [export] and no path is a document,
    yet no documentation suggestion is made; the same text handed over as
    one string, as [buildPrompt] takes it, draws the suggestion. *)
Theorem getSuggestions_documentation_array :
  let lines := [lit "+export function f(){}"] in
  let status :=
    {| added := [lit "a.ts"]; modified := []; deleted := [];
       untracked := []; conflicted := [];
       hasChanges := fun _ => true |} in
  includes (join [NL] lines) (lit "export") = true
  /\ existsb (fun line => includes line (lit "export")) lines = true
  /\ hasDocChanges status = false
  /\ ~ In suggestDocs
        (getSuggestions (lit "feat: add f") status (DiffLines lines))
  /\ In suggestDocs
       (getSuggestions (lit "feat: add f") status
          (DiffText (join [NL] lines))).
Proof.
  cbv zeta. split; [vm_compute; reflexivity |].
  split; [vm_compute; reflexivity |].
  split; [vm_compute; reflexivity |]. split.
  - vm_compute. intros [H | []]. discriminate H.
  - vm_compute. right. left. reflexivity.
Qed.

End Suggestions.

(** ** The generator *)

Section Generate.

Lemma await_world {A : Type} (r : result A) (w : World) :
  snd (await r w) = w.
Proof. reflexivity. Qed.

(** Reading the repository leaves the world as it is. *)
Lemma getDiffSummary_world (repo : Repo) (w : World) :
  snd (getDiffSummary repo w) = w.
Proof.
  unfold getDiffSummary, getStatus, getDiff, tryCatch, bind, await, ret, throw.
  destruct (git_status repo); cbn; [| reflexivity].
  destruct (git_diff_cached repo) as [d |]; cbn; [| reflexivity].
  destruct (str_eqb (trim d) []); cbn; [| reflexivity].
  destruct (git_diff repo); reflexivity.
Qed.

(** C3: when the status of the diff summary has no changes, the generator
    rejects with the no-changes error and the world is as before: no prompt
    reached [agent.generate]. *)
Theorem generateCommitMessage_no_changes (repo : Repo) (agent : Agent)
  (options : Options) (w w' : World) (diffSummary : DiffSummary) :
  getDiffSummary repo w = (Resolved diffSummary, w') ->
  hasChanges (status diffSummary) tt = false ->
  generateCommitMessage repo agent options w = (Rejected noChangesMessage, w)
  /\ backendCalls (snd (generateCommitMessage repo agent options w))
     = backendCalls w.
Proof.
  intros Hsum Hnone.
  assert (Hw : w' = w).
  { pose proof (getDiffSummary_world repo w) as H. now rewrite Hsum in H. }
  subst w'.
  assert (Hgen : generateCommitMessage repo agent options w
                 = (Rejected noChangesMessage, w)).
  { unfold generateCommitMessage, bind. rewrite Hsum, Hnone. reflexivity. }
  split; [exact Hgen | now rewrite Hgen].
Qed.

Lemma generateCommitMessage_no_changes_witness :
  let repo :=
    {| git_status :=
         Resolved {| sg_staged := []; sg_modified := []; sg_deleted := [];
                     sg_not_added := []; sg_conflicted := [] |};
       git_diff_cached := Resolved [];
       git_diff := Resolved [] |} in
  let agent : Agent := fun _ => Resolved (lit "feat: add f") in
  let w := {| backendCalls := []; consoleLog := [] |} in
  generateCommitMessage repo agent noOptions w = (Rejected noChangesMessage, w)
  /\ backendCalls (snd (generateCommitMessage repo agent noOptions w))
     = backendCalls w.
Proof.
  cbv zeta.
  eapply generateCommitMessage_no_changes; [vm_compute; reflexivity |].
  reflexivity.
Defined.

(** C10: a snapshot with nothing staged, modified, deleted or untracked has
    no changes whatever its conflicted files are, and the generator rejects
    with the no-changes error without reaching the agent. *)
Theorem conflicted_only_no_changes (conflicted : list str)
  (staged_diff working_diff : str) (agent : Agent) (options : Options)
  (w : World) :
  let snapshot :=
    {| sg_staged := []; sg_modified := []; sg_deleted := [];
       sg_not_added := []; sg_conflicted := conflicted |} in
  let repo :=
    {| git_status := Resolved snapshot;
       git_diff_cached := Resolved staged_diff;
       git_diff := Resolved working_diff |} in
  GitManager.conflicted (statusOf snapshot) = conflicted
  /\ hasChanges (statusOf snapshot) tt = false
  /\ generateCommitMessage repo agent options w
     = (Rejected noChangesMessage, w).
Proof.
  cbv zeta. split; [reflexivity |]. split; [reflexivity |].
  unfold generateCommitMessage, getDiffSummary, getStatus, getDiff, tryCatch,
    bind, await, ret, throw.
  cbn. destruct (str_eqb (trim staged_diff) []); reflexivity.
Qed.

End Generate.

(** ** Message post-processing *)

Section PostProcess.

Lemma first_split_cons (x : char) (s : str) (c : char) :
  first (split (x :: s) c)
  = if char_eqb x c then [] else x :: first (split s c).
Proof.
  cbn [split]. destruct (char_eqb x c); [reflexivity |].
  destruct (split s c); reflexivity.
Qed.

Lemma split_not_empty (s : str) (c : char) : split s c <> [].
Proof.
  destruct s as [| x s]; cbn [split]; [discriminate |].
  destruct (char_eqb x c); [discriminate |].
  destruct (split s c); discriminate.
Qed.

(** The first line of a prefix of [u ++ tail], where [tail] is empty or
    starts a new line, is no longer than [u]. *)
Lemma first_line_of_prefix (u tail p q : str) :
  p ++ q = u ++ tail ->
  tail = [] \/ (exists v, tail = NL :: v) ->
  len (first (split p NL)) <= len u.
Proof.
  revert p. induction u as [| x u IH]; intros p Hpq Htail.
  - cbn [app] in Hpq. destruct p as [| y p]; [cbn; unfold len; simpl; lia |].
    destruct Htail as [-> | (v & ->)]; [discriminate |].
    cbn [app] in Hpq. injection Hpq as -> _.
    rewrite first_split_cons, char_eqb_refl. unfold len. simpl. lia.
  - destruct p as [| y p]; [cbn; unfold len; simpl; lia |].
    cbn [app] in Hpq. injection Hpq as -> Hpq.
    rewrite first_split_cons. specialize (IH p Hpq Htail).
    destruct (char_eqb x NL); unfold len in *; simpl; lia.
Qed.

Lemma trimStart_suffix (s : str) : exists a, s = a ++ trimStart s.
Proof.
  induction s as [| c s (a & IH)]; [now exists [] |].
  cbn [trimStart]. destruct (isWhiteSpace c).
  - exists (c :: a). cbn [app]. now f_equal.
  - now exists [].
Qed.

Lemma trimEnd_prefix (s : str) : exists q, trimEnd s ++ q = s.
Proof.
  unfold trimEnd. destruct (trimStart_suffix (rev s)) as (a & Ha).
  exists (rev a). rewrite <- rev_app_distr, <- Ha. apply rev_involutive.
Qed.

Lemma len_trimStart (s : str) : len (trimStart s) <= len s.
Proof.
  destruct (trimStart_suffix s) as (a & Ha).
  rewrite Ha at 2. rewrite len_app. pose proof (len_nonneg a). lia.
Qed.

Lemma len_trimEnd (s : str) : len (trimEnd s) <= len s.
Proof.
  destruct (trimEnd_prefix s) as (q & Hq).
  rewrite <- Hq at 2. rewrite len_app. pose proof (len_nonneg q). lia.
Qed.

Lemma len_trim (s : str) : len (trim s) <= len s.
Proof.
  unfold trim. pose proof (len_trimEnd (trimStart s)).
  pose proof (len_trimStart s). lia.
Qed.

Lemma trimStart_app (l tail : str) :
  nonBlank l = true -> trimStart (l ++ tail) = trimStart l ++ tail.
Proof.
  induction l as [| c l IH]; [discriminate |].
  cbn [nonBlank existsb app trimStart]. fold (nonBlank l).
  destruct (isWhiteSpace c); cbn [negb orb]; [exact IH | reflexivity].
Qed.

Lemma join_newline_cons (l : str) (rest : list str) :
  exists tail, join [NL] (l :: rest) = l ++ tail
               /\ (tail = [] \/ exists v, tail = NL :: v).
Proof.
  destruct rest as [| l' rest].
  - exists []. split; [symmetry; apply app_nil_r | now left].
  - exists (NL :: join [NL] (l' :: rest)). split; [reflexivity |].
    right. now eexists.
Qed.

Lemma indexOf_range (s : str) (c : char) : -1 <= indexOf s c < len s.
Proof.
  induction s as [| x s IH]; cbn [indexOf].
  - unfold len. simpl. lia.
  - replace (len (x :: s)) with (len s + 1) by (unfold len; simpl; lia).
    pose proof (len_nonneg s).
    destruct (char_eqb x c); [lia |].
    destruct (indexOf s c <? 0) eqn:E; lia.
Qed.

(** The line stored in [lines[0]] is within the budget: when the first
    line already is, when it is cut without regard to a colon, and when the
    text behind the colon is cut. *)
Lemma budgeted_first_len (processed : str) (options : Options) :
  let budget := orDefault (maxLength options) 50 in
  let firstLine := first (split processed NL) in
  let colonIndex := indexOf firstLine COLON in
  let description := trim (substringFrom firstLine (colonIndex + 1)) in
  len firstLine <= budget
  \/ ~ 0 < colonIndex < budget
  \/ (colonIndex + 1 < budget /\ budget - colonIndex - 2 < len description) ->
  nonBlank (first (budgeted processed options)) = true ->
  len (first (budgeted processed options)) <= budget.
Proof.
  intros budget firstLine colonIndex description Hcase.
  unfold budgeted. fold budget. fold firstLine. fold colonIndex.
  fold description.
  pose proof (split_not_empty processed NL) as Hne.
  assert (Hset : forall v, first (setFirst (split processed NL) v) = v).
  { intros v. destruct (split processed NL); [now elim Hne | reflexivity]. }
  destruct (budget <? len firstLine) eqn:Eover.
  2:{ intros _. apply Z.ltb_ge in Eover. exact Eover. }
  apply Z.ltb_lt in Eover.
  pose proof (indexOf_range firstLine COLON) as Hci. fold colonIndex in Hci.
  destruct ((0 <? colonIndex) && (colonIndex <? budget)) eqn:Ecolon.
  - apply andb_true_iff in Ecolon as (E1 & E2).
    apply Z.ltb_lt in E1. apply Z.ltb_lt in E2.
    destruct Hcase as [H | [H | (Hroom & Hdesc)]]; [lia | lia |].
    assert (Hprefix : len (substring firstLine 0 (colonIndex + 1))
                      = colonIndex + 1)
      by (rewrite len_substring_0; lia).
    rewrite Hprefix.
    replace (budget - (colonIndex + 1) - 1 <? len description) with true
      by (symmetry; apply Z.ltb_lt; lia).
    intros _. rewrite Hset, !len_app, Hprefix.
    pose proof (len_trim (substring description 0
                            (budget - (colonIndex + 1) - 1))) as Ht.
    rewrite len_substring_0 in Ht.
    replace (len [SP]) with 1 by reflexivity. lia.
  - rewrite Hset. intros Hnb.
    pose proof (len_trim (substring firstLine 0 budget)) as Ht.
    rewrite len_substring_0 in Ht.
    destruct (Z_lt_ge_dec budget 0) as [Hneg | Hpos]; [| lia].
    exfalso. rewrite substring_0 in Hnb.
    replace (Z.to_nat budget) with 0%nat in Hnb by lia.
    discriminate Hnb.
Qed.

(** C1, as the code has it.  The budget is [maxLength], or 50 when
    [maxLength] is 0 or missing.  The first line of the result is within
    the budget whenever the line kept in [lines[0]] is not blank and the
    first line of the cleaned text is within the budget, or has no colon at
    an offset strictly between 0 and the budget, or has one at least two
    characters before the budget and a description longer than the room
    behind it. *)
Theorem postProcessMessage_subject_budget (raw : str) (options : Options) :
  let budget := orDefault (maxLength options) 50 in
  let firstLine := first (split (cleaned raw) NL) in
  let colonIndex := indexOf firstLine COLON in
  let description := trim (substringFrom firstLine (colonIndex + 1)) in
  len firstLine <= budget
  \/ ~ 0 < colonIndex < budget
  \/ (colonIndex + 1 < budget /\ budget - colonIndex - 2 < len description) ->
  nonBlank (first (budgeted (cleaned raw) options)) = true ->
  len (first (split (postProcessMessage raw options) NL)) <= budget.
Proof.
  intros budget firstLine colonIndex description Hcase Hnb.
  pose proof (budgeted_first_len (cleaned raw) options Hcase Hnb) as Hlen.
  fold budget in Hlen. unfold postProcessMessage.
  destruct (budgeted (cleaned raw) options) as [| l rest] eqn:Elines.
  - discriminate Hnb.
  - cbn [first hd] in Hnb, Hlen.
    destruct (join_newline_cons l rest) as (tail & -> & Htail).
    unfold trim. rewrite (trimStart_app l tail Hnb).
    destruct (trimEnd_prefix (trimStart l ++ tail)) as (q & Hq).
    pose proof (first_line_of_prefix _ _ _ _ Hq Htail) as Hfirst.
    pose proof (len_trimStart l). lia.
Qed.

Lemma postProcessMessage_subject_budget_witness :
  let raw :=
    lit "feat: add a very long description that exceeds the fifty character budget by a lot" in
  let options :=
    {| format := None; maxLength := Some 50; maxDiffLength := None |} in
  postProcessMessage raw options
  = lit "feat: add a very long description that exceeds the"
  /\ len (first (split (postProcessMessage raw options) NL)) <= 50.
Proof.
  cbv zeta. split; [vm_compute; reflexivity |].
  apply (postProcessMessage_subject_budget
           (lit "feat: add a very long description that exceeds the fifty character budget by a lot")
           {| format := None; maxLength := Some 50; maxDiffLength := None |}).
  - right. right. vm_compute. split; reflexivity.
  - vm_compute. reflexivity.
Defined.

(** C1 as stated fails in four ways: a colon just before the budget leaves
    the prefix and a space, one character over; a description padded with
    white space is left as it is; a blank first line is dropped by the
    final [trim], which makes the next line the first; and a budget of 0
    counts as 50. *)
Lemma postProcessMessage_subject_budget_counterexample :
  let opts L :=
    {| format := None; maxLength := Some L; maxDiffLength := None |} in
  let long :=
    lit "a second line that is a good deal longer than fifty characters" in
  (postProcessMessage (lit "feat: abcdef" ++ NL :: lit "body") (opts 5)
   = lit "feat: " ++ NL :: lit "body"
   /\ 5 < len (first (split (postProcessMessage
                               (lit "feat: abcdef" ++ NL :: lit "body")
                               (opts 5)) NL)))
  /\ (postProcessMessage (lit "a: b " ++ NL :: lit "body") (opts 4)
      = lit "a: b " ++ NL :: lit "body"
      /\ 4 < len (first (split (postProcessMessage
                                  (lit "a: b " ++ NL :: lit "body")
                                  (opts 4)) NL)))
  /\ (postProcessMessage
        (lit "```" ++ NL :: lit "feat: x" ++ NL :: lit "```" ++ NL :: long)
        (opts 50)
      = long
      /\ 50 < len (first (split (postProcessMessage
                                   (lit "```" ++ NL :: lit "feat: x" ++ NL
                                    :: lit "```" ++ NL :: long)
                                   (opts 50)) NL)))
  /\ (postProcessMessage (lit "abc") (opts 0) = lit "abc"
      /\ 0 < len (first (split (postProcessMessage (lit "abc") (opts 0)) NL))).
Proof.
  cbv zeta. repeat split; vm_compute; reflexivity.
Qed.

End PostProcess.

(* ================================================================== *)
(** * Further properties *)

(** ** The generator, on every path *)

Section GenerateMore.

(** What [getDiffSummary] settles to depends on the repository alone. *)
Lemma getDiffSummary_pure (repo : Repo) (w w0 : World) :
  getDiffSummary repo w = (fst (getDiffSummary repo w0), w).
Proof.
  unfold getDiffSummary, getStatus, getDiff, tryCatch, bind, await, ret, throw.
  destruct (git_status repo); cbn; [| reflexivity].
  destruct (git_diff_cached repo) as [d |]; cbn; [| reflexivity].
  destruct (str_eqb (trim d) []); cbn; [| reflexivity].
  destruct (git_diff repo); reflexivity.
Qed.

Lemma generateCommitMessage_step (repo : Repo) (agent : Agent)
  (options : Options) (w : World) :
  generateCommitMessage repo agent options w =
    match fst (getDiffSummary repo w) with
    | Rejected e => (Rejected e, w)
    | Resolved diffSummary =>
        if hasChanges (status diffSummary) tt then
          let prompt :=
            buildPrompt (status diffSummary) (diff diffSummary) options in
          match agent prompt with
          | Resolved text =>
              (Resolved (postProcessMessage text options),
               {| backendCalls := backendCalls w ++ [prompt];
                  consoleLog := consoleLog w ++ [ResponseObject text] |})
          | Rejected e =>
              (Rejected e,
               {| backendCalls := backendCalls w ++ [prompt];
                  consoleLog := consoleLog w |})
          end
        else (Rejected noChangesMessage, w)
    end.
Proof.
  unfold generateCommitMessage, bind at 1.
  rewrite (getDiffSummary_pure repo w w). cbn [fst snd].
  destruct (fst (getDiffSummary repo w)) as [ds | e]; [| reflexivity].
  destruct (hasChanges (status ds) tt); cbn [negb]; [| reflexivity].
  unfold bind, agentGenerate, log, ret. cbn.
  destruct (agent _); reflexivity.
Qed.

(** When the snapshot has changes and the agent answers, the generator
    resolves to the post-processed answer; the agent was called once, with
    the prompt built from the summary, and the response object was
    logged. *)
Theorem generateCommitMessage_success (repo : Repo) (agent : Agent)
  (options : Options) (w w' : World) (diffSummary : DiffSummary)
  (text : str) :
  getDiffSummary repo w = (Resolved diffSummary, w') ->
  hasChanges (status diffSummary) tt = true ->
  agent (buildPrompt (status diffSummary) (diff diffSummary) options)
    = Resolved text ->
  generateCommitMessage repo agent options w =
    (Resolved (postProcessMessage text options),
     {| backendCalls :=
          backendCalls w
          ++ [buildPrompt (status diffSummary) (diff diffSummary) options];
        consoleLog := consoleLog w ++ [ResponseObject text] |}).
Proof.
  intros Hsum Hchg Hans. rewrite generateCommitMessage_step, Hsum.
  cbn [fst]. rewrite Hchg. cbv zeta. rewrite Hans. reflexivity.
Qed.

Lemma generateCommitMessage_success_witness :
  let repo :=
    {| git_status :=
         Resolved {| sg_staged := [lit "a.ts"]; sg_modified := [];
                     sg_deleted := []; sg_not_added := [];
                     sg_conflicted := [] |};
       git_diff_cached := Resolved (lit "+export function f(){}");
       git_diff := Resolved [] |} in
  let agent : Agent := fun _ => Resolved (lit "  feat: add `f`  ") in
  let w := {| backendCalls := []; consoleLog := [] |} in
  fst (generateCommitMessage repo agent noOptions w)
  = Resolved (lit "feat: add f")
  /\ consoleLog (snd (generateCommitMessage repo agent noOptions w))
     = [ResponseObject (lit "  feat: add `f`  ")].
Proof.
  cbv zeta.
  erewrite generateCommitMessage_success;
    [| vm_compute; reflexivity | reflexivity | reflexivity].
  split; vm_compute; reflexivity.
Defined.

(** When the agent rejects, the generator rejects with the same message:
    nothing is logged and nothing is post-processed. *)
Theorem generateCommitMessage_backend_failure (repo : Repo) (agent : Agent)
  (options : Options) (w w' : World) (diffSummary : DiffSummary)
  (error : str) :
  getDiffSummary repo w = (Resolved diffSummary, w') ->
  hasChanges (status diffSummary) tt = true ->
  agent (buildPrompt (status diffSummary) (diff diffSummary) options)
    = Rejected error ->
  generateCommitMessage repo agent options w =
    (Rejected error,
     {| backendCalls :=
          backendCalls w
          ++ [buildPrompt (status diffSummary) (diff diffSummary) options];
        consoleLog := consoleLog w |}).
Proof.
  intros Hsum Hchg Hans. rewrite generateCommitMessage_step, Hsum.
  cbn [fst]. rewrite Hchg. cbv zeta. rewrite Hans. reflexivity.
Qed.

Lemma generateCommitMessage_backend_failure_witness :
  let repo :=
    {| git_status :=
         Resolved {| sg_staged := [lit "a.ts"]; sg_modified := [];
                     sg_deleted := []; sg_not_added := [];
                     sg_conflicted := [] |};
       git_diff_cached := Resolved (lit "+export function f(){}");
       git_diff := Resolved [] |} in
  let agent : Agent := fun _ => Rejected (lit "rate limit") in
  let w := {| backendCalls := []; consoleLog := [] |} in
  fst (generateCommitMessage repo agent noOptions w)
  = Rejected (lit "rate limit").
Proof.
  cbv zeta.
  erewrite generateCommitMessage_backend_failure;
    [| vm_compute; reflexivity | reflexivity | reflexivity].
  reflexivity.
Defined.

(** Whatever happens, one run of the generator hands at most one prompt to
    the agent and leaves the earlier calls in place. *)
Theorem generateCommitMessage_one_request (repo : Repo) (agent : Agent)
  (options : Options) (w : World) :
  exists prompts,
    backendCalls (snd (generateCommitMessage repo agent options w))
    = backendCalls w ++ prompts
    /\ (List.length prompts <= 1)%nat.
Proof.
  rewrite generateCommitMessage_step.
  destruct (fst (getDiffSummary repo w)) as [ds | e].
  - destruct (hasChanges (status ds) tt).
    + cbv zeta. destruct (agent _); eexists; split;
        try reflexivity; simpl; lia.
    + exists []. split; [symmetry; apply app_nil_r | simpl; lia].
  - exists []. split; [symmetry; apply app_nil_r | simpl; lia].
Qed.

(** A failure of [git status] or of [git diff] reaches the caller wrapped
    twice, and no prompt reaches the agent. *)
Theorem generateCommitMessage_git_failure (repo : Repo) (agent : Agent)
  (options : Options) (w : World) (error : str) :
  (git_status repo = Rejected error ->
   generateCommitMessage repo agent options w =
     (Rejected (lit "Failed to get diff summary: "
                ++ lit "Failed to get git status: " ++ error), w))
  /\ (forall snapshot,
        git_status repo = Resolved snapshot ->
        git_diff_cached repo = Rejected error ->
        generateCommitMessage repo agent options w =
          (Rejected (lit "Failed to get diff summary: "
                     ++ lit "Failed to get git diff: " ++ error), w)).
Proof.
  split.
  - intros Hst. rewrite generateCommitMessage_step.
    unfold getDiffSummary, getStatus, tryCatch, bind, await, throw.
    rewrite Hst. reflexivity.
  - intros snapshot Hst Hdiff. rewrite generateCommitMessage_step.
    unfold getDiffSummary, getStatus, getDiff, tryCatch, bind, await, throw,
      ret.
    rewrite Hst, Hdiff. reflexivity.
Qed.

Lemma generateCommitMessage_git_failure_witness :
  let repo :=
    {| git_status := Rejected (lit "not a git repository");
       git_diff_cached := Resolved [];
       git_diff := Resolved [] |} in
  let w := {| backendCalls := []; consoleLog := [] |} in
  generateCommitMessage repo (fun _ => Resolved []) noOptions w
  = (Rejected
       (lit "Failed to get diff summary: Failed to get git status: not a git repository"),
     w).
Proof.
  cbv zeta.
  apply (proj1 (generateCommitMessage_git_failure _ _ _ _
                  (lit "not a git repository"))).
  reflexivity.
Defined.

(** [getDiff] prefers the staged diff: when it is not blank it is the
    answer and the working-tree diff is not consulted; when it is blank
    (empty or white space only) the answer is the working-tree diff, and a
    failure of that one is wrapped. *)
Theorem getDiff_staged_first (repo : Repo) (w : World) (staged : str) :
  git_diff_cached repo = Resolved staged ->
  (trim staged <> [] -> getDiff repo w = (Resolved staged, w))
  /\ (trim staged = [] ->
      getDiff repo w =
        (match git_diff repo with
         | Resolved working => Resolved working
         | Rejected e => Rejected (lit "Failed to get git diff: " ++ e)
         end, w)).
Proof.
  intros Hst. unfold getDiff, tryCatch, bind, await, ret, throw.
  rewrite Hst. split; intros Hblank.
  - destruct (str_eqb (trim staged) []) eqn:E; [| reflexivity].
    apply str_eqb_eq in E. contradiction.
  - rewrite Hblank. cbn. destruct (git_diff repo); reflexivity.
Qed.

Lemma getDiff_staged_first_witness :
  let w := {| backendCalls := []; consoleLog := [] |} in
  getDiff {| git_status := Rejected [];
             git_diff_cached := Resolved (lit "+a");
             git_diff := Rejected (lit "boom") |} w
  = (Resolved (lit "+a"), w)
  /\ getDiff {| git_status := Rejected [];
                git_diff_cached := Resolved (lit "  ");
                git_diff := Resolved (lit "+b") |} w
     = (Resolved (lit "+b"), w).
Proof.
  cbv zeta. split.
  - apply (proj1 (getDiff_staged_first
                    {| git_status := Rejected [];
                       git_diff_cached := Resolved (lit "+a");
                       git_diff := Rejected (lit "boom") |} _ (lit "+a")
                    eq_refl)).
    vm_compute. discriminate.
  - apply (proj2 (getDiff_staged_first
                    {| git_status := Rejected [];
                       git_diff_cached := Resolved (lit "  ");
                       git_diff := Resolved (lit "+b") |} _ (lit "  ")
                    eq_refl)).
    vm_compute. reflexivity.
Defined.

End GenerateMore.

(** ** Alternatives *)

Section Alternatives.

Variables (repo : Repo) (agent : Agent) (options : Options).

Lemma alternativesFrom_resolves (n : nat) :
  forall (i : Z) (alternatives : list Alternative) (w : World),
  exists alternatives' w',
    alternativesFrom repo agent options n i alternatives w
    = (Resolved alternatives', w')
    /\ (List.length alternatives' <= List.length alternatives + n)%nat
    /\ exists prompts,
         backendCalls w' = backendCalls w ++ prompts
         /\ (List.length prompts <= n)%nat.
Proof.
  induction n as [| n IH]; intros i alternatives w.
  - exists alternatives, w. split; [reflexivity |]. split; [lia |].
    exists []. split; [symmetry; apply app_nil_r | simpl; lia].
  - cbn [alternativesFrom]. unfold bind at 1. unfold tryCatch, bind at 1.
    destruct (generateCommitMessage_one_request
                repo agent (variedOptions options i) w) as (ps & Hps & Hlen).
    destruct (generateCommitMessage repo agent (variedOptions options i) w)
      as [[message | error] w1] eqn:E; cbn [snd] in Hps.
    + unfold ret at 1.
      destruct (IH (i + 1)
                  (alternatives
                   ++ [{| alt_format := variedFormat i;
                          alt_message := message |}]) w1)
        as (alts' & w' & Hrun & Hcount & qs & Hqs & Hqlen).
      exists alts', w'. split; [exact Hrun |]. split.
      * rewrite length_app in Hcount. simpl in Hcount. lia.
      * exists (ps ++ qs). split.
        -- rewrite Hqs, Hps. symmetry. apply app_assoc.
        -- rewrite length_app. lia.
    + unfold bind, warn, ret. cbn.
      match goal with
      | |- context [alternativesFrom _ _ _ n (i + 1) alternatives ?w2] =>
          destruct (IH (i + 1) alternatives w2)
            as (alts' & w' & Hrun & Hcount & qs & Hqs & Hqlen)
      end.
      exists alts', w'. split; [exact Hrun |]. split; [lia |].
      exists (ps ++ qs). split.
      * rewrite Hqs. cbn [backendCalls]. rewrite Hps.
        symmetry. apply app_assoc.
      * rewrite length_app. lia.
Qed.

(** [generateAlternatives] never rejects: every failure of a round is
    caught.  It returns at most [count] alternatives and hands at most
    [count] prompts to the agent. *)
Theorem generateAlternatives_never_rejects (count : Z) (w : World) :
  exists alternatives w',
    generateAlternatives repo agent options count w
    = (Resolved alternatives, w')
    /\ arrayLength alternatives <= Z.max 0 count
    /\ exists prompts,
         backendCalls w' = backendCalls w ++ prompts
         /\ arrayLength prompts <= Z.max 0 count.
Proof.
  unfold generateAlternatives.
  destruct (alternativesFrom_resolves (Z.to_nat count) 0 [] w)
    as (alts & w' & Hrun & Hcount & ps & Hps & Hlen).
  exists alts, w'. split; [exact Hrun |]. unfold arrayLength.
  simpl in Hcount. split; [lia |].
  exists ps. split; [exact Hps | lia].
Qed.

(** The warning of round [j] (counted from 1) for a failure [error]. *)
Let warning (error : str) (j : Z) : str :=
  lit "Failed to generate alternative " ++ numberToString j ++ lit ": "
  ++ error.

Lemma alternativesFrom_no_changes (diffSummary : DiffSummary) (w0 : World) :
  fst (getDiffSummary repo w0) = Resolved diffSummary ->
  hasChanges (status diffSummary) tt = false ->
  forall (n : nat) (i : Z) (alternatives : list Alternative) (w : World),
    alternativesFrom repo agent options n i alternatives w
    = (Resolved alternatives,
       {| backendCalls := backendCalls w;
          consoleLog :=
            consoleLog w
            ++ map (fun k =>
                      Line (warning noChangesMessage (i + Z.of_nat k + 1)))
                   (List.seq 0%nat n) |}).
Proof.
  intros Hsum Hnone. induction n as [| n IH]; intros i alternatives w.
  - cbn. rewrite app_nil_r. destruct w; reflexivity.
  - cbn [alternativesFrom]. unfold bind at 1. unfold tryCatch, bind at 1.
    rewrite generateCommitMessage_step.
    rewrite (getDiffSummary_pure repo w w0). cbn [fst]. rewrite Hsum, Hnone.
    unfold bind, warn, ret. rewrite IH. cbn [backendCalls consoleLog].
    f_equal. f_equal. rewrite <- app_assoc. f_equal.
    cbn [List.seq map app]. f_equal.
    + unfold warning. replace (i + Z.of_nat 0 + 1) with (i + 1) by lia.
      reflexivity.
    + rewrite <- seq_shift, map_map. apply map_ext. intros k.
      replace (i + 1 + Z.of_nat k + 1) with (i + Z.of_nat (S k) + 1) by lia.
      reflexivity.
Qed.

(** With no changes in the snapshot every round fails before the agent is
    reached: the result is empty, no prompt was sent, and the console has
    one warning per round. *)
Theorem generateAlternatives_no_changes (count : Z) (w w' : World)
  (diffSummary : DiffSummary) :
  getDiffSummary repo w = (Resolved diffSummary, w') ->
  hasChanges (status diffSummary) tt = false ->
  generateAlternatives repo agent options count w
  = (Resolved [],
     {| backendCalls := backendCalls w;
        consoleLog :=
          consoleLog w
          ++ map (fun k =>
                    Line (lit "Failed to generate alternative "
                          ++ numberToString (Z.of_nat k + 1) ++ lit ": "
                          ++ noChangesMessage))
                 (List.seq 0%nat (Z.to_nat count)) |}).
Proof.
  intros Hsum Hnone. unfold generateAlternatives.
  rewrite (alternativesFrom_no_changes diffSummary w); [reflexivity | | exact Hnone].
  now rewrite Hsum.
Qed.

Lemma alternativesFrom_all_answered (diffSummary : DiffSummary) (w0 : World)
  (reply : str -> str) :
  fst (getDiffSummary repo w0) = Resolved diffSummary ->
  hasChanges (status diffSummary) tt = true ->
  (forall prompt, agent prompt = Resolved (reply prompt)) ->
  forall (n : nat) (i : Z) (alternatives : list Alternative) (w : World),
    fst (alternativesFrom repo agent options n i alternatives w)
    = Resolved
        (alternatives
         ++ map (fun k =>
                   let o := variedOptions options (i + Z.of_nat k) in
                   {| alt_format := variedFormat (i + Z.of_nat k);
                      alt_message :=
                        postProcessMessage
                          (reply (buildPrompt (status diffSummary)
                                              (diff diffSummary) o)) o |})
                (List.seq 0%nat n)).
Proof.
  intros Hsum Hchg Hreply. induction n as [| n IH]; intros i alternatives w.
  - cbn. now rewrite app_nil_r.
  - cbn [alternativesFrom]. unfold bind at 1. unfold tryCatch, bind at 1.
    rewrite generateCommitMessage_step.
    rewrite (getDiffSummary_pure repo w w0). cbn [fst]. rewrite Hsum, Hchg.
    cbv zeta. rewrite Hreply. unfold ret at 1. rewrite IH.
    f_equal. rewrite <- app_assoc. f_equal.
    cbn [List.seq map app]. f_equal.
    + rewrite Z.add_0_r. reflexivity.
    + rewrite <- seq_shift, map_map. apply map_ext. intros k.
      replace (i + 1 + Z.of_nat k) with (i + Z.of_nat (S k)) by lia.
      reflexivity.
Qed.

(** When the snapshot has changes and the agent answers every prompt, the
    result has one alternative per round, in order: the first in the
    conventional format, the second simple, every later one detailed, each
    the post-processed answer to the prompt of its round. *)
Theorem generateAlternatives_all_answered (count : Z) (w w' : World)
  (diffSummary : DiffSummary) (reply : str -> str) :
  getDiffSummary repo w = (Resolved diffSummary, w') ->
  hasChanges (status diffSummary) tt = true ->
  (forall prompt, agent prompt = Resolved (reply prompt)) ->
  fst (generateAlternatives repo agent options count w)
  = Resolved
      (map (fun k =>
              let o := variedOptions options (Z.of_nat k) in
              {| alt_format := variedFormat (Z.of_nat k);
                 alt_message :=
                   postProcessMessage
                     (reply (buildPrompt (status diffSummary)
                                         (diff diffSummary) o)) o |})
           (List.seq 0%nat (Z.to_nat count))).
Proof.
  intros Hsum Hchg Hreply. unfold generateAlternatives.
  rewrite (alternativesFrom_all_answered diffSummary w reply);
    [reflexivity | now rewrite Hsum | exact Hchg | exact Hreply].
Qed.

End Alternatives.

Lemma generateAlternatives_no_changes_witness :
  let repo :=
    {| git_status :=
         Resolved {| sg_staged := []; sg_modified := []; sg_deleted := [];
                     sg_not_added := []; sg_conflicted := [lit "a.ts"] |};
       git_diff_cached := Resolved [];
       git_diff := Resolved [] |} in
  let w := {| backendCalls := []; consoleLog := [] |} in
  generateAlternatives repo (fun _ => Resolved []) noOptions 2 w
  = (Resolved [],
     {| backendCalls := [];
        consoleLog :=
          [Line (lit "Failed to generate alternative 1: No changes detected in repository");
           Line (lit "Failed to generate alternative 2: No changes detected in repository")] |}).
Proof.
  cbv zeta.
  erewrite generateAlternatives_no_changes;
    [| vm_compute; reflexivity | reflexivity].
  vm_compute. reflexivity.
Defined.

Lemma generateAlternatives_all_answered_witness :
  let repo :=
    {| git_status :=
         Resolved {| sg_staged := [lit "a.ts"]; sg_modified := [];
                     sg_deleted := []; sg_not_added := [];
                     sg_conflicted := [] |};
       git_diff_cached := Resolved (lit "+export function f(){}");
       git_diff := Resolved [] |} in
  let w := {| backendCalls := []; consoleLog := [] |} in
  fst (generateAlternatives repo (fun _ => Resolved (lit "feat: add f"))
         noOptions 3 w)
  = Resolved
      [{| alt_format := lit "conventional"; alt_message := lit "feat: add f" |};
       {| alt_format := lit "simple"; alt_message := lit "feat: add f" |};
       {| alt_format := lit "detailed"; alt_message := lit "feat: add f" |}].
Proof.
  cbv zeta.
  erewrite (generateAlternatives_all_answered _ _ _ 3 _ _ _
              (fun _ => lit "feat: add f"));
    [| vm_compute; reflexivity | reflexivity | reflexivity].
  vm_compute. reflexivity.
Defined.

(** ** Committing *)

Section Committing.

Variable ws : Workspace.

Lemma validateFiles_cons (g : str) (files : list str)
  (calls : list GitCall) :
  validateFiles ws (g :: files) calls
  = match fs_access ws calls g with
    | Resolved _ => validateFiles ws files (calls ++ [Access g])
    | Rejected _ =>
        (Rejected (lit "File not found: " ++ g), calls ++ [Access g])
    end.
Proof.
  cbn [validateFiles]. unfold andThen, catch, call, raise.
  destruct (fs_access ws calls g) as [[] |]; reflexivity.
Qed.

(** The check of the files stops at the first one that cannot be
    accessed. *)
Lemma validateFiles_first_missing (ok : list str) (f : str)
  (rest : list str) :
  (forall calls g, In g ok -> fs_access ws calls g = Resolved tt) ->
  (forall calls, exists e, fs_access ws calls f = Rejected e) ->
  forall calls,
    validateFiles ws (ok ++ f :: rest) calls
    = (Rejected (lit "File not found: " ++ f),
       calls ++ map Access (ok ++ [f])).
Proof.
  intros Hok Hmiss. induction ok as [| g ok IH]; intros calls.
  - cbn [app map]. rewrite validateFiles_cons.
    destruct (Hmiss calls) as (e & ->). reflexivity.
  - cbn [app map]. rewrite validateFiles_cons.
    rewrite (Hok calls g) by now left.
    rewrite IH by (intros c h Hh; apply Hok; now right).
    now rewrite <- app_assoc.
Qed.

Lemma validateFiles_all_present (files : list str) :
  (forall calls g, In g files -> fs_access ws calls g = Resolved tt) ->
  forall calls,
    validateFiles ws files calls = (Resolved tt, calls ++ map Access files).
Proof.
  intros Hok. induction files as [| g files IH]; intros calls.
  - cbn. now rewrite app_nil_r.
  - cbn [map]. rewrite validateFiles_cons.
    rewrite (Hok calls g) by now left.
    rewrite IH by (intros c h Hh; apply Hok; now right).
    now rewrite <- app_assoc.
Qed.

(** [commitFiles] with a file that is not there rejects, naming the first
    such file; the files before it were checked, and nothing was added or
    committed. *)
Theorem commitFiles_missing_file (message : str) (ok : list str) (f : str)
  (rest : list str) (calls : list GitCall) :
  (forall calls g, In g ok -> fs_access ws calls g = Resolved tt) ->
  (forall calls, exists e, fs_access ws calls f = Rejected e) ->
  commitFiles ws message (ok ++ f :: rest) calls
  = (Rejected (lit "Failed to commit files: File not found: " ++ f),
     calls ++ map Access (ok ++ [f])).
Proof.
  intros Hok Hmiss. unfold commitFiles, catch, andThen at 1.
  rewrite (validateFiles_first_missing ok f rest Hok Hmiss).
  reflexivity.
Qed.

(** [commitFiles] when every file is there and both [git add] and
    [git commit] succeed: the hash of the commit, after the checks, one
    [add] of exactly the given files and one [commit]. *)
Theorem commitFiles_success (message : str) (files : list str)
  (hash : str) (calls : list GitCall) :
  (forall calls g, In g files -> fs_access ws calls g = Resolved tt) ->
  (forall calls, git_add ws calls files = Resolved tt) ->
  (forall calls, git_commit ws calls message = Resolved hash) ->
  commitFiles ws message files calls
  = (Resolved hash,
     calls ++ map Access files ++ [Add files; Commit message]).
Proof.
  intros Hok Hadd Hcommit. unfold commitFiles, catch, andThen at 1.
  rewrite (validateFiles_all_present files Hok).
  unfold andThen, call, done. rewrite Hadd, Hcommit.
  f_equal. rewrite <- !app_assoc. reflexivity.
Qed.

Lemma validateFiles_calls (files : list str) :
  forall calls,
  exists k,
    snd (validateFiles ws files calls)
    = calls ++ map Access (firstn k files)
    /\ (fst (validateFiles ws files calls) = Resolved tt ->
        firstn k files = files)
    /\ (forall e, fst (validateFiles ws files calls) = Rejected e ->
        exists f, In f files /\ e = lit "File not found: " ++ f).
Proof.
  induction files as [| g files IH]; intros calls.
  - exists 0%nat. cbn. rewrite app_nil_r.
    split; [reflexivity |]. split; [reflexivity | discriminate].
  - rewrite validateFiles_cons.
    destruct (fs_access ws calls g) as [[] | e0].
    + destruct (IH (calls ++ [Access g])) as (k & Hcalls & Hok & Hbad).
      exists (S k). cbn [firstn map]. split; [| split].
      * rewrite Hcalls, <- app_assoc. reflexivity.
      * intros H. now rewrite (Hok H).
      * intros e H. destruct (Hbad e H) as (f & Hin & ->).
        exists f. split; [now right | reflexivity].
    + exists 1%nat. cbn. split; [reflexivity |].
      split; [discriminate |].
      intros e [= <-]. exists g. split; [now left | reflexivity].
Qed.

Lemma startsWith_app (p s : str) : startsWith (p ++ s) p = true.
Proof.
  induction p as [| c p IH]; cbn [app startsWith].
  - destruct s; reflexivity.
  - now rewrite char_eqb_refl, IH.
Qed.

Lemma commitFiles_step (message : str) (files : list str)
  (calls : list GitCall) :
  commitFiles ws message files calls
  = match validateFiles ws files calls with
    | (Rejected e, calls1) =>
        (Rejected (lit "Failed to commit files: " ++ e), calls1)
    | (Resolved _, calls1) =>
        match git_add ws calls1 files with
        | Rejected e =>
            (Rejected (lit "Failed to commit files: " ++ e),
             calls1 ++ [Add files])
        | Resolved _ =>
            match git_commit ws (calls1 ++ [Add files]) message with
            | Rejected e =>
                (Rejected (lit "Failed to commit files: " ++ e),
                 (calls1 ++ [Add files]) ++ [Commit message])
            | Resolved hash =>
                (Resolved hash, (calls1 ++ [Add files]) ++ [Commit message])
            end
        end
    end.
Proof.
  unfold commitFiles, catch, andThen, call, done, raise.
  destruct (validateFiles ws files calls) as [[[] | e0] calls1];
    [| reflexivity].
  destruct (git_add ws calls1 files) as [[] | e1]; [| reflexivity].
  destruct (git_commit ws _ message); reflexivity.
Qed.

(** On every path of [commitFiles]: a rejection always carries the prefix
    [Failed to commit files: ], and [git commit] is called only behind a
    check of every file and an [add] of exactly these files. *)
Theorem commitFiles_commits_only_checked (message : str) (files : list str)
  (calls : list GitCall) :
  let outcome := commitFiles ws message files calls in
  (forall e, fst outcome = Rejected e ->
     startsWith e (lit "Failed to commit files: ") = true)
  /\ exists made,
       snd outcome = calls ++ made
       /\ (forall m, In (Commit m) made ->
             made = map Access files ++ [Add files; Commit message]).
Proof.
  cbv zeta. rewrite commitFiles_step.
  destruct (validateFiles_calls files calls) as (k & Hcalls & Hok & Hbad).
  destruct (validateFiles ws files calls) as [[[] | e0] calls1] eqn:E;
    cbn [fst snd] in *.
  - rewrite (Hok eq_refl) in Hcalls. subst calls1.
    destruct (git_add ws _ files) as [[] | e1].
    + destruct (git_commit ws _ message) as [hash | e2]; cbn [fst snd].
      * split; [discriminate |].
        exists (map Access files ++ [Add files; Commit message]).
        split; [now rewrite <- !app_assoc | reflexivity].
      * split; [intros e [= <-];
          exact (startsWith_app (lit "Failed to commit files: ") _) |].
        exists (map Access files ++ [Add files; Commit message]).
        split; [now rewrite <- !app_assoc | reflexivity].
    + cbn [fst snd]. split; [intros e [= <-];
          exact (startsWith_app (lit "Failed to commit files: ") _) |].
      exists (map Access files ++ [Add files]).
      split; [now rewrite <- !app_assoc |].
      intros m Hin. apply in_app_or in Hin as [Hin | [Hin | []]];
        [| discriminate Hin].
      apply in_map_iff in Hin as (x & Hx & _). discriminate Hx.
  - cbn [fst snd]. split; [intros e [= <-];
          exact (startsWith_app (lit "Failed to commit files: ") _) |].
    exists (map Access (firstn k files)). split; [exact Hcalls |].
    intros m Hin. apply in_map_iff in Hin as (x & Hx & _). discriminate Hx.
Qed.

(** [commitAll] stages everything first; when that fails nothing is
    committed and the failure is wrapped.  [commitStaged] stages
    nothing. *)
Theorem commitAll_add_first (message : str) (calls : list GitCall) :
  (forall e, git_add ws calls [lit "."] = Rejected e ->
     commitAll ws message calls
     = (Rejected (lit "Failed to commit all changes: " ++ e),
        calls ++ [Add [lit "."]]))
  /\ (git_add ws calls [lit "."] = Resolved tt ->
      snd (commitAll ws message calls)
      = calls ++ [Add [lit "."]; Commit message])
  /\ snd (commitStaged ws message calls) = calls ++ [Commit message].
Proof.
  unfold commitAll, commitStaged, catch, andThen, call, done, raise.
  split; [| split].
  - intros e ->. reflexivity.
  - intros ->. rewrite <- app_assoc.
    destruct (git_commit ws _ message); reflexivity.
  - destruct (git_commit ws calls message); reflexivity.
Qed.

End Committing.

Lemma commitFiles_missing_file_witness :
  let ws :=
    {| fs_access := fun _ file =>
         if str_eqb file (lit "gone.ts") then Rejected (lit "ENOENT")
         else Resolved tt;
       git_add := fun _ _ => Resolved tt;
       git_commit := fun _ _ => Resolved (lit "abc1234") |} in
  commitFiles ws (lit "feat: x") [lit "a.ts"; lit "gone.ts"; lit "b.ts"] []
  = (Rejected (lit "Failed to commit files: File not found: gone.ts"),
     [Access (lit "a.ts"); Access (lit "gone.ts")]).
Proof.
  cbv zeta.
  apply (commitFiles_missing_file _ (lit "feat: x") [lit "a.ts"]
           (lit "gone.ts") [lit "b.ts"] []).
  - intros calls g [<- | []]. reflexivity.
  - intros calls. eexists. reflexivity.
Defined.

Lemma commitFiles_success_witness :
  let ws :=
    {| fs_access := fun _ _ => Resolved tt;
       git_add := fun _ _ => Resolved tt;
       git_commit := fun _ _ => Resolved (lit "abc1234") |} in
  commitFiles ws (lit "feat: x") [lit "a.ts"; lit "b.ts"] []
  = (Resolved (lit "abc1234"),
     [Access (lit "a.ts"); Access (lit "b.ts");
      Add [lit "a.ts"; lit "b.ts"]; Commit (lit "feat: x")]).
Proof.
  cbv zeta.
  apply (commitFiles_success _ (lit "feat: x") [lit "a.ts"; lit "b.ts"]
           (lit "abc1234") []); reflexivity.
Defined.

Lemma commitAll_add_first_witness :
  let ws :=
    {| fs_access := fun _ _ => Resolved tt;
       git_add := fun _ _ => Rejected (lit "index.lock exists");
       git_commit := fun _ _ => Resolved (lit "abc1234") |} in
  commitAll ws (lit "feat: x") []
  = (Rejected (lit "Failed to commit all changes: index.lock exists"),
     [Add [lit "."]]).
Proof.
  cbv zeta.
  apply (proj1 (commitAll_add_first _ (lit "feat: x") [])).
  reflexivity.
Defined.

(** ** Configuration *)

Section Configuration.

Import ConfigManager.

Lemma getConfig_step (d : Disk) :
  getConfig d =
    match configFile d with
    | Holds config => (Resolved config, d)
    | Unreadable =>
        (Resolved defaults,
         {| configFile := Unreadable; writable := writable d;
            warned :=
              warned d ++ [lit "Failed to read config file, using defaults"] |})
    | Missing =>
        if writable d
        then (Resolved defaults,
              {| configFile := Holds defaults; writable := writable d;
                 warned := warned d |})
        else (Resolved defaults,
              {| configFile := Missing; writable := writable d;
                 warned :=
                   warned d
                   ++ [lit "Failed to read config file, using defaults"] |})
    end.
Proof.
  unfold getConfig, catch, andThen, access, mkdir, writeFile, readFile,
    ConfigManager.warn, done.
  destruct d as [[| | config] [|] ws']; reflexivity.
Qed.

(** [getConfig] never rejects.  It answers the configuration the file
    holds, and the defaults when the file is missing or unusable; a missing file is
    created with the defaults when the disk can be written, and every other
    fallback is announced by one warning. *)
Theorem getConfig_never_rejects (d : Disk) :
  exists d',
    getConfig d = (Resolved (configInForce d), d')
    /\ (forall config, configFile d = Holds config -> d' = d)
    /\ (configFile d = Missing -> writable d = true ->
        configFile d' = Holds defaults /\ warned d' = warned d)
    /\ (configFile d = Unreadable \/ writable d = false ->
        configFile d' = configFile d).
Proof.
  rewrite getConfig_step. unfold configInForce.
  destruct d as [[| | config] [|] ws']; cbn;
    eexists; (split; [reflexivity |]);
    repeat split; try discriminate; try reflexivity;
    intros; try discriminate; intuition discriminate.
Qed.

(** [setConfig] on a disk that can be written stores the configuration in
    force with the one key replaced, and [getConfig] then answers exactly
    that; over an unusable file this starts again from the defaults.  On a
    disk that cannot be written [setConfig] rejects. *)
Theorem setConfig_then_getConfig (setting : Setting) (d : Disk) :
  (writable d = true ->
   exists d',
     setConfig setting d = (Resolved tt, d')
     /\ configFile d' = Holds (assign (configInForce d) setting)
     /\ getConfig d' = (Resolved (assign (configInForce d) setting), d'))
  /\ (writable d = false ->
      exists e d', setConfig setting d = (Rejected e, d')
                   /\ configFile d' = configFile d).
Proof.
  unfold setConfig, andThen. rewrite getConfig_step. unfold configInForce.
  split; intros Hw.
  - destruct d as [[| | config] wr ws']; cbn in Hw; subst wr; cbn;
      eexists; (split; [reflexivity |]); split; reflexivity.
  - destruct d as [[| | config] wr ws']; cbn in Hw; subst wr; cbn;
      do 2 eexists; split; reflexivity.
Qed.

Lemma setConfig_then_getConfig_witness :
  let d :=
    {| configFile := Unreadable; writable := true; warned := [] |} in
  exists d',
    setConfig (SetMaxLength (Some 72)) d = (Resolved tt, d')
    /\ configFile d'
       = Holds {| defaultFormat := None; ConfigManager.maxLength := Some 72;
                  providers := []; defaultProvider := [] |}
    /\ getConfig d'
       = (Resolved {| defaultFormat := None;
                      ConfigManager.maxLength := Some 72;
                      providers := []; defaultProvider := [] |}, d').
Proof.
  cbv zeta.
  exact (proj1 (setConfig_then_getConfig (SetMaxLength (Some 72))
                  {| configFile := Unreadable; writable := true;
                     warned := [] |}) eq_refl).
Defined.

Lemma getDefaultProvider_step (d : Disk) :
  fst (getDefaultProvider d) =
    Resolved
      match providers (configInForce d) with
      | [] => None
      | first :: _ =>
          if str_eqb (defaultProvider (configInForce d)) [] then Some first
          else
            match find (fun p => str_eqb (providerName p)
                                         (defaultProvider (configInForce d)))
                       (providers (configInForce d)) with
            | Some p => Some p
            | None => Some first
            end
      end.
Proof.
  unfold getDefaultProvider, andThen.
  destruct (getConfig_never_rejects d) as (d' & -> & _).
  destruct (providers (configInForce d)) as [| q qs] eqn:E; [reflexivity |].
  replace (arrayLength (q :: qs) =? 0) with false
    by (unfold arrayLength; simpl; lia).
  destruct (str_eqb (defaultProvider (configInForce d)) []); cbn [negb].
  - reflexivity.
  - destruct (find _ _); reflexivity.
Qed.

(** On a file that is missing, unusable or holds a configuration,
    [getDefaultProvider] resolves; it answers [null] exactly when no
    provider is configured, and otherwise one of the configured
    providers. *)
Theorem getDefaultProvider_is_configured (d : Disk) :
  exists answer,
    fst (getDefaultProvider d) = Resolved answer
    /\ (answer = None <-> providers (configInForce d) = [])
    /\ (forall p, answer = Some p -> In p (providers (configInForce d))).
Proof.
  rewrite getDefaultProvider_step. eexists. split; [reflexivity |].
  destruct (providers (configInForce d)) as [| q qs] eqn:E.
  - split; [tauto | discriminate].
  - destruct (str_eqb (defaultProvider (configInForce d)) []).
    + split; [split; discriminate |]. intros p [= <-]. now left.
    + destruct (find _ (q :: qs)) as [p' |] eqn:F.
      * split; [split; discriminate |]. intros p [= <-].
        apply find_some in F. tauto.
      * split; [split; discriminate |]. intros p [= <-]. now left.
Qed.

(** Which provider [getDefaultProvider] answers: the first one whose name
    is the non-empty [defaultProvider]; the first of all when the name is
    empty or names no provider. *)
Theorem getDefaultProvider_choice (d : Disk) (first : LlmProvider)
  (others : list LlmProvider) :
  providers (configInForce d) = first :: others ->
  let wanted := defaultProvider (configInForce d) in
  (wanted <> [] ->
   forall before p after,
     first :: others = before ++ p :: after ->
     providerName p = wanted ->
     (forall q, In q before -> providerName q <> wanted) ->
     fst (getDefaultProvider d) = Resolved (Some p))
  /\ (wanted = []
      \/ (forall q, In q (first :: others) -> providerName q <> wanted) ->
      fst (getDefaultProvider d) = Resolved (Some first)).
Proof.
  intros Hps wanted. rewrite getDefaultProvider_step, Hps. fold wanted.
  split.
  - intros Hne before p after Hsplit Hname Hbefore.
    destruct (str_eqb wanted []) eqn:E;
      [apply str_eqb_eq in E; contradiction |].
    rewrite Hsplit.
    assert (Hfind : find (fun p0 => str_eqb (providerName p0) wanted)
                         (before ++ p :: after) = Some p).
    { clear Hsplit. induction before as [| q before IH]; cbn [app find].
      - rewrite Hname, str_eqb_refl. reflexivity.
      - destruct (str_eqb (providerName q) wanted) eqn:Eq.
        + apply str_eqb_eq in Eq. exfalso.
          apply (Hbefore q); [now left | exact Eq].
        + apply IH. intros q' Hq'. apply Hbefore. now right. }
    rewrite Hfind. reflexivity.
  - intros [Hempty | Hnone].
    + rewrite Hempty. reflexivity.
    + destruct (str_eqb wanted []); [reflexivity |].
      destruct (find _ (first :: others)) as [p |] eqn:F; [| reflexivity].
      apply find_some in F as (Hin & Hname). apply str_eqb_eq in Hname.
      exfalso. exact (Hnone p Hin Hname).
Qed.

Lemma getDefaultProvider_choice_witness :
  let local := Ollama (lit "llama3") (lit "local") (lit "http://localhost") in
  let cloud := OpenAI (lit "gpt-4o") (lit "cloud") (lit "sk-1") in
  let config wanted :=
    {| defaultFormat := None; ConfigManager.maxLength := None;
       providers := [local; cloud]; defaultProvider := wanted |} in
  fst (getDefaultProvider
         {| configFile := Holds (config (lit "cloud"));
            writable := true; warned := [] |})
  = Resolved (Some cloud)
  /\ fst (getDefaultProvider
            {| configFile := Holds (config (lit "gone"));
               writable := true; warned := [] |})
     = Resolved (Some local).
Proof.
  cbv zeta beta. split.
  - pose proof
      (getDefaultProvider_choice
         {| configFile :=
              Holds {| defaultFormat := None;
                       ConfigManager.maxLength := None;
                       providers :=
                         [Ollama (lit "llama3") (lit "local")
                                 (lit "http://localhost");
                          OpenAI (lit "gpt-4o") (lit "cloud") (lit "sk-1")];
                       defaultProvider := lit "cloud" |};
            writable := true; warned := [] |}
         _ _ eq_refl) as H.
    cbv zeta in H. destruct H as [H _].
    apply (H ltac:(discriminate)
             [Ollama (lit "llama3") (lit "local") (lit "http://localhost")]
             _ [] eq_refl eq_refl).
    intros q [<- | []]. discriminate.
  - pose proof
      (getDefaultProvider_choice
         {| configFile :=
              Holds {| defaultFormat := None;
                       ConfigManager.maxLength := None;
                       providers :=
                         [Ollama (lit "llama3") (lit "local")
                                 (lit "http://localhost");
                          OpenAI (lit "gpt-4o") (lit "cloud") (lit "sk-1")];
                       defaultProvider := lit "gone" |};
            writable := true; warned := [] |}
         _ _ eq_refl) as H.
    cbv zeta in H. destruct H as [_ H]. apply H.
    right. intros q [<- | [<- | []]]; discriminate.
Defined.

End Configuration.

(** ** Lines: [split] and [join] *)

Section Lines.

Lemma split_cons_hit (s : str) (c : char) : split (c :: s) c = [] :: split s c.
Proof. cbn [split]. now rewrite char_eqb_refl. Qed.

Lemma split_cons_miss (x : char) (s : str) (c : char) :
  x <> c ->
  split (x :: s) c = (x :: first (split s c)) :: tl (split s c).
Proof.
  intros Hx. cbn [split].
  destruct (char_eqb x c) eqn:E; [apply char_eqb_eq in E; contradiction |].
  pose proof (split_not_empty s c). destruct (split s c); [contradiction |].
  reflexivity.
Qed.

Lemma split_app_sep (l t : str) (c : char) :
  ~ In c l -> split (l ++ c :: t) c = l :: split t c.
Proof.
  induction l as [| x l IH]; intros Hl; cbn [app].
  - apply split_cons_hit.
  - rewrite split_cons_miss by (intros ->; apply Hl; now left).
    rewrite IH by (intros H; apply Hl; now right). reflexivity.
Qed.

Lemma split_no_sep (l : str) (c : char) : ~ In c l -> split l c = [l].
Proof.
  induction l as [| x l IH]; intros Hl; [reflexivity |].
  rewrite split_cons_miss by (intros ->; apply Hl; now left).
  rewrite IH by (intros H; apply Hl; now right). reflexivity.
Qed.

Lemma join_cons_cons (sep : str) (x : char) (l : str) (ls : list str) :
  join sep ((x :: l) :: ls) = x :: join sep (l :: ls).
Proof. destruct ls; reflexivity. Qed.

(** Joining the lines of a text gives the text back. *)
Lemma join_split (s : str) : join [NL] (split s NL) = s.
Proof.
  induction s as [| x s IH]; [reflexivity |].
  destruct (N.eq_dec x NL) as [-> | Hx].
  - rewrite split_cons_hit.
    pose proof (split_not_empty s NL).
    destruct (split s NL) as [| l ls] eqn:E; [contradiction |].
    change (join [NL] ([] :: l :: ls)) with (NL :: join [NL] (l :: ls)).
    now rewrite IH.
  - rewrite split_cons_miss by exact Hx.
    pose proof (split_not_empty s NL).
    destruct (split s NL) as [| l ls] eqn:E; [contradiction |].
    cbn [first hd tl]. rewrite join_cons_cons, IH. reflexivity.
Qed.

(** Splitting joined lines gives the lines back, when none of them holds a
    newline. *)
Lemma split_join (lines : list str) :
  lines <> [] ->
  (forall l, In l lines -> ~ In NL l) ->
  split (join [NL] lines) NL = lines.
Proof.
  induction lines as [| l lines IH]; intros Hne Hl; [contradiction |].
  destruct lines as [| l' lines].
  - cbn [join]. apply split_no_sep. apply Hl. now left.
  - change (join [NL] (l :: l' :: lines))
      with (l ++ NL :: join [NL] (l' :: lines)).
    rewrite split_app_sep by (apply Hl; now left).
    rewrite IH; [reflexivity | discriminate |].
    intros l0 H0. apply Hl. now right.
Qed.

Lemma first_split_no_sep (s : str) (c : char) : ~ In c (first (split s c)).
Proof.
  induction s as [| x s IH]; [intros [] |].
  rewrite first_split_cons.
  destruct (char_eqb x c) eqn:E; [intros [] |].
  intros [-> | H]; [now rewrite char_eqb_refl in E | contradiction].
Qed.

Lemma first_split_app (p y : str) (c : char) :
  ~ In c p -> first (split (p ++ y) c) = p ++ first (split y c).
Proof.
  induction p as [| x p IH]; intros Hp; [reflexivity |].
  cbn [app]. rewrite first_split_cons.
  destruct (char_eqb x c) eqn:E.
  - apply char_eqb_eq in E. subst. exfalso. apply Hp. now left.
  - rewrite IH by (intros H; apply Hp; now right). reflexivity.
Qed.

End Lines.

(** ** Display of validation results *)

Section Display.

(** [formatValidationErrors] gives the empty string for no errors and
    otherwise one line per error, in order, each behind three spaces, a
    bullet and a space (provided no error holds a newline itself). *)
Theorem formatValidationErrors_lines (errors : list str) :
  (forall e, In e errors -> ~ In NL e) ->
  formatValidationErrors [] = []
  /\ (errors <> [] ->
      split (formatValidationErrors errors) NL
      = map (fun e => lit "   " ++ [BULLET] ++ lit " " ++ e) errors).
Proof.
  intros Hnl. split; [reflexivity |]. intros Hne.
  unfold formatValidationErrors.
  destruct errors as [| e errors]; [contradiction |].
  replace (arrayLength (e :: errors) =? 0) with false
    by (unfold arrayLength; simpl; lia).
  apply split_join; [discriminate |].
  intros l Hin. apply in_map_iff in Hin as (x & <- & Hx).
  intros H. cbn in H.
  repeat (destruct H as [H | H]; [discriminate H |]).
  exact (Hnl x Hx H).
Qed.

Lemma formatValidationErrors_lines_witness :
  split (formatValidationErrors
           (errors (validateMessage (lit "Added things") conventional))) NL
  = [lit "   " ++ [BULLET]
     ++ lit " First line does not follow conventional commit format"].
Proof.
  refine (proj2 (formatValidationErrors_lines [errFormat] _) _).
  - intros e [<- | []]. vm_compute.
    intros H. repeat (destruct H as [H | H]; [discriminate H |]). exact H.
  - discriminate.
Defined.

(** [formatSuggestions] gives the empty string for no suggestions and
    otherwise one line per suggestion, in order: a cross for an error, a
    warning sign for a warning and an information sign for any other
    type, then the message (provided no message holds a newline). *)
Theorem formatSuggestions_lines (suggestions : list Suggestion.t) :
  (forall s, In s suggestions -> ~ In NL (Suggestion.message s)) ->
  formatSuggestions [] = []
  /\ (suggestions <> [] ->
      split (formatSuggestions suggestions) NL
      = map (fun s =>
               lit "   "
               ++ (if str_eqb (Suggestion.type s) (lit "error")
                   then CROSS_MARK
                   else if str_eqb (Suggestion.type s) (lit "warning")
                   then WARNING_SIGN
                   else INFORMATION)
               ++ lit " " ++ Suggestion.message s)
            suggestions).
Proof.
  intros Hnl. split; [reflexivity |]. intros Hne.
  unfold formatSuggestions.
  destruct suggestions as [| s0 suggestions]; [contradiction |].
  replace (arrayLength (s0 :: suggestions) =? 0) with false
    by (unfold arrayLength; simpl; lia).
  apply split_join; [discriminate |].
  intros l Hin. apply in_map_iff in Hin as (x & <- & Hx).
  intros H. cbn [lit app map list_ascii_of_string] in H.
  repeat (destruct H as [H | H]; [discriminate H |]).
  apply in_app_or in H as [H | H].
  - destruct (str_eqb _ _); [| destruct (str_eqb _ _)];
      cbn in H; repeat (destruct H as [H | H]; [discriminate H |]);
      exact H.
  - cbn in H. destruct H as [H | H]; [discriminate H |].
    exact (Hnl x Hx H).
Qed.

Lemma formatSuggestions_lines_witness :
  split (formatSuggestions [suggestBreaking; suggestDocs]) NL
  = [lit "   " ++ WARNING_SIGN
     ++ lit " This may be a breaking change - consider using BREAKING CHANGE footer";
     lit "   " ++ INFORMATION
     ++ lit " Consider updating documentation for API changes"].
Proof.
  refine (proj2 (formatSuggestions_lines [suggestBreaking; suggestDocs] _) _).
  - intros s [<- | [<- | []]]; vm_compute;
      intros H; repeat (destruct H as [H | H]; [discriminate H |]); exact H.
  - discriminate.
Defined.

End Display.

(** ** More on post-processing *)

Section PostProcessMore.

Lemma trimStart_head (s : str) :
  trimStart s = []
  \/ exists c r, trimStart s = c :: r /\ isWhiteSpace c = false.
Proof.
  induction s as [| c s IH]; [now left |].
  cbn [trimStart]. destruct (isWhiteSpace c) eqn:E; [exact IH |].
  right. now exists c, s.
Qed.

Lemma trimStart_fixed (c : char) (r : str) :
  isWhiteSpace c = false -> trimStart (c :: r) = c :: r.
Proof. intros H. cbn [trimStart]. now rewrite H. Qed.

Lemma trimStart_idem (s : str) : trimStart (trimStart s) = trimStart s.
Proof.
  destruct (trimStart_head s) as [-> | (c & r & -> & Hc)]; [reflexivity |].
  now apply trimStart_fixed.
Qed.

Lemma trimStart_snoc (l : str) (c : char) :
  trimStart (l ++ [c])
  = match trimStart l with
    | [] => if isWhiteSpace c then [] else [c]
    | t => t ++ [c]
    end.
Proof.
  induction l as [| x l IH]; cbn [app trimStart].
  - destruct (isWhiteSpace c); reflexivity.
  - destruct (isWhiteSpace x); [exact IH | reflexivity].
Qed.

Lemma trimEnd_cons (c : char) (s : str) :
  trimEnd (c :: s)
  = match trimEnd s with
    | [] => if isWhiteSpace c then [] else [c]
    | _ => c :: trimEnd s
    end.
Proof.
  unfold trimEnd. cbn [rev]. rewrite trimStart_snoc.
  destruct (trimStart (rev s)) as [| y t] eqn:E.
  - cbn [rev]. destruct (isWhiteSpace c); reflexivity.
  - rewrite rev_app_distr. cbn [rev app].
    destruct (rev t ++ [y]) eqn:E2; [| reflexivity].
    destruct (rev t); discriminate.
Qed.

Lemma trimEnd_idem (s : str) : trimEnd (trimEnd s) = trimEnd s.
Proof.
  unfold trimEnd. now rewrite rev_involutive, trimStart_idem.
Qed.

(** Trimming the end leaves a start that is not white space alone. *)
Lemma trimStart_trimEnd (t : str) :
  trimStart t = t -> trimStart (trimEnd t) = trimEnd t.
Proof.
  intros Ht. destruct (trimStart_head t) as [H | (c & r & H & Hc)];
    rewrite Ht in H; subst t; [reflexivity |].
  rewrite trimEnd_cons. destruct (trimEnd r).
  - rewrite Hc. now apply trimStart_fixed.
  - now apply trimStart_fixed.
Qed.

Lemma trim_idem (s : str) : trim (trim s) = trim s.
Proof.
  unfold trim.
  rewrite (trimStart_trimEnd (trimStart s)) by apply trimStart_idem.
  apply trimEnd_idem.
Qed.

(** The result of [postProcessMessage] is trimmed: it neither starts nor
    ends with white space, whatever the input and the options. *)
Theorem postProcessMessage_trimmed (raw : str) (options : Options) :
  let result := postProcessMessage raw options in
  trim result = result
  /\ (forall c rest, result = c :: rest -> isWhiteSpace c = false)
  /\ (forall init c, result = init ++ [c] -> isWhiteSpace c = false).
Proof.
  cbv zeta. unfold postProcessMessage.
  set (x := join [NL] (budgeted (cleaned raw) options)).
  split; [apply trim_idem |]. split.
  - intros c rest H.
    assert (Hs : trimStart (trim x) = trim x).
    { unfold trim. apply trimStart_trimEnd, trimStart_idem. }
    rewrite H in Hs. cbn [trimStart] in Hs.
    destruct (isWhiteSpace c) eqn:E; [| reflexivity].
    exfalso. pose proof (len_trimStart rest) as Hl. rewrite Hs in Hl.
    unfold len in Hl. simpl in Hl. lia.
  - intros init c H.
    assert (He : trimEnd (trim x) = trim x) by (unfold trim; apply trimEnd_idem).
    rewrite H in He. unfold trimEnd in He.
    rewrite rev_app_distr in He. cbn [rev app trimStart] in He.
    destruct (isWhiteSpace c) eqn:E; [| reflexivity].
    exfalso. apply (f_equal (@List.length _)) in He.
    rewrite length_rev, length_app in He. simpl in He.
    pose proof (len_trimStart (rev init)) as Hl.
    unfold len in Hl. rewrite length_rev in Hl. lia.
Qed.

(** A message whose first line is within the budget once cleaned is not
    touched by the budget step: the result is the cleaned text, trimmed. *)
Theorem postProcessMessage_within_budget (raw : str) (options : Options) :
  len (first (split (cleaned raw) NL)) <= orDefault (maxLength options) 50 ->
  postProcessMessage raw options = trim (cleaned raw).
Proof.
  intros Hfit. unfold postProcessMessage, budgeted.
  replace (orDefault (maxLength options) 50
           <? len (first (split (cleaned raw) NL))) with false
    by (symmetry; apply Z.ltb_ge; exact Hfit).
  now rewrite join_split.
Qed.

Lemma postProcessMessage_within_budget_witness :
  postProcessMessage (lit "  **feat**: add `x`  ") noOptions
  = trim (cleaned (lit "  **feat**: add `x`  ")).
Proof.
  apply postProcessMessage_within_budget. vm_compute. discriminate.
Defined.

Lemma indexOf_nth (s : str) (c : char) :
  0 <= indexOf s c -> nth_error s (Z.to_nat (indexOf s c)) = Some c.
Proof.
  induction s as [| x s IH]; cbn [indexOf]; [lia |].
  destruct (char_eqb x c) eqn:E.
  - intros _. apply char_eqb_eq in E. now subst.
  - destruct (indexOf s c <? 0) eqn:E2; [lia |].
    apply Z.ltb_ge in E2. intros _.
    replace (Z.to_nat (indexOf s c + 1)) with (S (Z.to_nat (indexOf s c)))
      by lia.
    cbn [nth_error]. now apply IH.
Qed.

(** White space in front of a character that is none is all [trimStart]
    can take. *)
Lemma trimStart_before_kept (u : str) (c : char) (v : str) :
  isWhiteSpace c = false ->
  exists u', trimStart (u ++ c :: v) = u' ++ c :: v.
Proof.
  intros Hc. induction u as [| x u (u' & IH)]; cbn [app].
  - exists []. now apply trimStart_fixed.
  - cbn [trimStart]. destruct (isWhiteSpace x).
    + now exists u'.
    + now exists (x :: u).
Qed.

(** [trimEnd] keeps everything through a character that is not white
    space. *)
Lemma trimEnd_keeps (a : str) (c : char) (y : str) :
  isWhiteSpace c = false ->
  exists y', trimEnd ((a ++ [c]) ++ y) = (a ++ [c]) ++ y'.
Proof.
  intros Hc. unfold trimEnd.
  rewrite rev_app_distr, rev_app_distr. cbn [rev app].
  destruct (trimStart_before_kept (rev y) c (rev a) Hc) as (u' & ->).
  exists (rev u').
  rewrite rev_app_distr. cbn [rev]. rewrite rev_involutive.
  now rewrite <- app_assoc.
Qed.

(** The line kept in [lines[0]] starts with the text through the colon
    whenever the colon branch is taken. *)
Lemma budgeted_keeps_prefix (processed : str) (options : Options) :
  let budget := orDefault (maxLength options) 50 in
  let firstLine := first (split processed NL) in
  let colonIndex := indexOf firstLine COLON in
  budget < len firstLine ->
  0 < colonIndex < budget ->
  exists x,
    first (budgeted processed options)
    = substring firstLine 0 (colonIndex + 1) ++ x.
Proof.
  intros budget firstLine colonIndex Hover Hcolon.
  unfold budgeted. fold budget. fold firstLine. fold colonIndex.
  replace (budget <? len firstLine) with true
    by (symmetry; apply Z.ltb_lt; exact Hover).
  replace ((0 <? colonIndex) && (colonIndex <? budget)) with true
    by (symmetry; apply andb_true_iff; split; apply Z.ltb_lt; lia).
  pose proof (split_not_empty processed NL) as Hne.
  destruct (_ <? len (trim _)).
  - eexists. destruct (split processed NL); [contradiction | reflexivity].
  - exists (skipn (Z.to_nat (colonIndex + 1)) firstLine).
    rewrite substring_0. fold firstLine. now rewrite firstn_skipn.
Qed.

(** Prefix preservation: when the first line of the cleaned text is over
    the budget, starts with a character that is not white space and has
    its first colon at an offset strictly between 0 and the budget, the
    first line of the result starts with that line's text up to and
    including the colon. *)
Theorem postProcessMessage_keeps_prefix (raw : str) (options : Options) :
  let budget := orDefault (maxLength options) 50 in
  let firstLine := first (split (cleaned raw) NL) in
  let colonIndex := indexOf firstLine COLON in
  budget < len firstLine ->
  0 < colonIndex < budget ->
  trimStart firstLine = firstLine ->
  startsWith (first (split (postProcessMessage raw options) NL))
             (substring firstLine 0 (colonIndex + 1)) = true.
Proof.
  intros budget firstLine colonIndex Hover Hcolon Hstart.
  destruct (budgeted_keeps_prefix (cleaned raw) options Hover Hcolon)
    as (x & Hkept).
  fold firstLine colonIndex in Hkept.
  pose proof (indexOf_range firstLine COLON) as Hrange.
  fold colonIndex in Hrange.
  assert (H0 : 0 <= colonIndex) by lia.
  pose proof (indexOf_nth firstLine COLON H0) as Hnth. fold colonIndex in Hnth.
  (* the prefix: what is in front of the colon, and the colon *)
  assert (Hprefix : substring firstLine 0 (colonIndex + 1)
                    = firstn (Z.to_nat colonIndex) firstLine ++ [COLON]).
  { rewrite substring_0.
    replace (Z.to_nat (colonIndex + 1)) with (S (Z.to_nat colonIndex)) by lia.
    clear - Hnth. revert Hnth. generalize (Z.to_nat colonIndex) as n.
    induction firstLine as [| y l IH]; intros [| n] H; try discriminate.
    - injection H as ->. reflexivity.
    - cbn [firstn app]. f_equal. apply IH. exact H. }
  set (a := firstn (Z.to_nat colonIndex) firstLine) in *.
  assert (Hnl : ~ In NL (a ++ [COLON])).
  { intros H. apply in_app_or in H as [H | [H | []]]; [| discriminate H].
    apply (first_split_no_sep (cleaned raw) NL).
    fold firstLine. eapply In_firstn. exact H. }
  (* the start of the prefix is not white space *)
  assert (Ha : exists c r, a = c :: r /\ isWhiteSpace c = false).
  { destruct (trimStart_head firstLine) as [H | (c & r & H & Hc)];
      rewrite Hstart in H.
    - rewrite H in Hover. unfold len in Hover. simpl in Hover.
      unfold budget in *. lia.
    - unfold a. rewrite H.
      replace (Z.to_nat colonIndex) with (S (Z.to_nat (colonIndex - 1)))
        by lia.
      cbn [firstn]. now eexists _, _. }
  destruct Ha as (c & r & Ha & Hc).
  unfold postProcessMessage.
  pose proof (split_not_empty (cleaned raw) NL) as Hne.
  destruct (budgeted (cleaned raw) options) as [| l rest] eqn:Elines.
  { unfold budgeted in Elines.
    repeat match type of Elines with
           | (if ?b then _ else _) = _ => destruct b
           end;
      destruct (split (cleaned raw) NL); try contradiction; discriminate. }
  cbn [first hd] in Hkept. subst l.
  destruct (join_newline_cons (substring firstLine 0 (colonIndex + 1) ++ x)
              rest) as (tail & -> & _).
  rewrite Hprefix, <- !app_assoc. unfold trim.
  replace (a ++ [COLON] ++ x ++ tail) with (c :: r ++ [COLON] ++ x ++ tail)
    by (rewrite Ha; reflexivity).
  rewrite (trimStart_fixed c _ Hc).
  replace (c :: r ++ [COLON] ++ x ++ tail) with ((a ++ [COLON]) ++ x ++ tail)
    by (rewrite Ha, <- app_assoc; reflexivity).
  destruct (trimEnd_keeps a COLON (x ++ tail) eq_refl) as (y' & ->).
  rewrite (first_split_app _ y' NL Hnl).
  apply startsWith_app.
Qed.

Lemma postProcessMessage_keeps_prefix_witness :
  let raw :=
    lit "feat(auth): add a very long description that exceeds the fifty character budget" in
  startsWith (first (split (postProcessMessage raw noOptions) NL))
             (lit "feat(auth):") = true.
Proof.
  cbv zeta.
  apply (postProcessMessage_keeps_prefix
           (lit "feat(auth): add a very long description that exceeds the fifty character budget")
           noOptions).
  - vm_compute. reflexivity.
  - vm_compute. split; reflexivity.
  - vm_compute. reflexivity.
Defined.

End PostProcessMore.

(** ** The patterns, as languages *)

Section RegexFacts.

Lemma lang_empty_inv (w : str) : ~ lang Empty w.
Proof. intros H. inversion H. Qed.

Lemma lang_eps_inv (w : str) : lang Eps w -> w = [].
Proof. intros H. now inversion H. Qed.

Lemma lang_cls_inv (p : char -> bool) (w : str) :
  lang (Cls p) w -> exists c, w = [c] /\ p c = true.
Proof. intros H. inversion H; subst. now eexists. Qed.

Lemma lang_seq_inv (r s : regex) (w : str) :
  lang (Seq r s) w -> exists u v, w = u ++ v /\ lang r u /\ lang s v.
Proof. intros H. inversion H; subst. now eexists _, _. Qed.

Lemma lang_alt_inv (r s : regex) (w : str) :
  lang (Alt r s) w -> lang r w \/ lang s w.
Proof. intros H. inversion H; subst; tauto. Qed.

Lemma lang_star_inv (r : regex) (w : str) :
  lang (Star r) w ->
  w = []
  \/ exists c u v, w = (c :: u) ++ v /\ lang r (c :: u) /\ lang (Star r) v.
Proof.
  intros H. remember (Star r) as q eqn:Eq.
  induction H as [| | | | | r0 | r0 u v Hu _ Hv IHv]; try discriminate.
  - now left.
  - injection Eq as ->. destruct u as [| c u].
    + cbn [app]. now apply IHv.
    + right. now exists c, u, v.
Qed.

Lemma lang_seq_iff (r s : regex) (w : str) :
  lang (Seq r s) w <-> exists u v, w = u ++ v /\ lang r u /\ lang s v.
Proof.
  split; [apply lang_seq_inv |].
  intros (u & v & -> & Hu & Hv). now constructor.
Qed.

Lemma lang_alt_iff (r s : regex) (w : str) :
  lang (Alt r s) w <-> lang r w \/ lang s w.
Proof.
  split; [apply lang_alt_inv |].
  intros [H | H]; [now apply lang_alt_l | now apply lang_alt_r].
Qed.

Lemma nullable_lang (r : regex) : nullable r = true <-> lang r [].
Proof.
  induction r as [| | p | r IHr s IHs | r IHr s IHs | r IHr]; cbn [nullable].
  - split; [discriminate | intros H; inversion H].
  - split; [constructor | reflexivity].
  - split; [discriminate | intros H; inversion H].
  - rewrite andb_true_iff, IHr, IHs, lang_seq_iff. split.
    + intros [Hr Hs]. now exists [], [].
    + intros (u & v & E & Hu & Hv). symmetry in E.
      apply app_eq_nil in E as [-> ->]. tauto.
  - rewrite orb_true_iff, IHr, IHs, lang_alt_iff. tauto.
  - split; [constructor | reflexivity].
Qed.

Lemma lang_seq_smart (r s : regex) (w : str) :
  lang (seq r s) w <-> lang (Seq r s) w.
Proof.
  rewrite lang_seq_iff.
  destruct r; destruct s; cbn [seq]; try (rewrite lang_seq_iff; tauto);
    try (split; [intros H; inversion H
                | intros (u & v & _ & Hu & Hv);
                  solve [inversion Hu | inversion Hv]]);
    (split;
     [ intros H; exists [], w; repeat split; [constructor | exact H]
     | intros (u & v & -> & Hu & Hv); apply lang_eps_inv in Hu; now subst ]).
Qed.

Lemma lang_alt_smart (r s : regex) (w : str) :
  lang (alt r s) w <-> lang (Alt r s) w.
Proof.
  rewrite lang_alt_iff.
  destruct r; destruct s; cbn [alt]; try (rewrite lang_alt_iff; tauto);
    (split; [tauto | intros [H | H]; solve [exact H | inversion H]]).
Qed.

Lemma lang_deriv (r : regex) :
  forall (c : char) (w : str), lang (deriv c r) w <-> lang r (c :: w).
Proof.
  induction r as [| | p | r IHr s IHs | r IHr s IHs | r IHr];
    intros c w; cbn [deriv].
  - split; intros H; inversion H.
  - split; intros H; inversion H.
  - destruct (p c) eqn:E.
    + split.
      * intros H. apply lang_eps_inv in H. subst. now constructor.
      * intros H. apply lang_cls_inv in H as (x & Hx & _).
        injection Hx as -> ->. constructor.
    + split; [intros H; inversion H |].
      intros H. apply lang_cls_inv in H as (x & Hx & Hp).
      injection Hx as -> ->. congruence.
  - assert (Hcore :
      (exists u v, w = u ++ v /\ lang r (c :: u) /\ lang s v)
      \/ (lang r [] /\ lang s (c :: w))
      <-> lang (Seq r s) (c :: w)).
    { rewrite lang_seq_iff. split.
      - intros [(u & v & -> & Hu & Hv) | [Hr Hs]].
        + now exists (c :: u), v.
        + now exists [], (c :: w).
      - intros (u & v & E & Hu & Hv). destruct u as [| x u].
        + right. cbn [app] in E. subst v. tauto.
        + left. cbn [app] in E. injection E as <- ->. now exists u, v. }
    rewrite <- Hcore.
    destruct (nullable r) eqn:En.
    + rewrite lang_alt_smart, lang_alt_iff, lang_seq_smart, lang_seq_iff.
      apply nullable_lang in En.
      split.
      * intros [(u & v & -> & Hu & Hv) | H].
        -- left. exists u, v. rewrite <- IHr. tauto.
        -- right. rewrite <- IHs. tauto.
      * intros [(u & v & -> & Hu & Hv) | [_ H]].
        -- left. exists u, v. rewrite IHr. tauto.
        -- right. now rewrite IHs.
    + rewrite lang_seq_smart, lang_seq_iff. split.
      * intros (u & v & -> & Hu & Hv). left. exists u, v.
        rewrite <- IHr. tauto.
      * intros [(u & v & -> & Hu & Hv) | [Hr _]].
        -- exists u, v. rewrite IHr. tauto.
        -- apply nullable_lang in Hr. congruence.
  - rewrite lang_alt_smart, !lang_alt_iff, IHr, IHs. tauto.
  - rewrite lang_seq_smart, lang_seq_iff. split.
    + intros (u & v & -> & Hu & Hv). apply IHr in Hu.
      change (c :: u ++ v) with ((c :: u) ++ v). now constructor.
    + intros H. apply lang_star_inv in H as [H | (x & u & v & E & Hu & Hv)];
        [discriminate |].
      cbn [app] in E. injection E as <- ->.
      exists u, v. rewrite IHr. tauto.
Qed.

(** The matcher decides the language. *)
Lemma matches_lang (s : str) : forall r, matches r s = true <-> lang r s.
Proof.
  unfold matches. induction s as [| c s IH]; intros r; cbn [fold_left].
  - apply nullable_lang.
  - rewrite IH. apply lang_deriv.
Qed.

Lemma lang_star_any (w : str) : lang (Star Any) w.
Proof.
  induction w as [| c w IH]; [constructor |].
  change (c :: w) with ([c] ++ w). constructor; [| exact IH].
  now constructor.
Qed.

Lemma lang_star_cls (p : char -> bool) (w : str) :
  lang (Star (Cls p)) w <-> forallb p w = true.
Proof.
  split.
  - intros H. remember (Star (Cls p)) as q eqn:Eq.
    induction H as [| | | | | r0 | r0 u v Hu _ Hv IHv]; try discriminate.
    + reflexivity.
    + injection Eq as ->. apply lang_cls_inv in Hu as (c & -> & Hc).
      cbn [app forallb]. rewrite Hc. now apply IHv.
  - induction w as [| c w IH]; intros H; [constructor |].
    cbn [forallb] in H. apply andb_true_iff in H as [Hc Hw].
    change (c :: w) with ([c] ++ w). constructor; [now constructor | auto].
Qed.

Lemma lang_plus_cls (p : char -> bool) (w : str) :
  lang (Plus (Cls p)) w <-> w <> [] /\ forallb p w = true.
Proof.
  unfold Plus. rewrite lang_seq_iff. split.
  - intros (u & v & -> & Hu & Hv).
    apply lang_cls_inv in Hu as (c & -> & Hc).
    apply lang_star_cls in Hv. cbn [app forallb]. rewrite Hc.
    split; [discriminate | exact Hv].
  - intros [Hne H]. destruct w as [| c w]; [contradiction |].
    cbn [forallb] in H. apply andb_true_iff in H as [Hc Hw].
    exists [c], w. split; [reflexivity |].
    split; [now constructor | now apply lang_star_cls].
Qed.

Lemma lang_chr (c : char) (w : str) : lang (Chr c) w <-> w = [c].
Proof.
  split.
  - intros H. apply lang_cls_inv in H as (x & -> & Hx).
    apply char_eqb_eq in Hx. now subst.
  - intros ->. constructor. apply char_eqb_refl.
Qed.

Lemma lang_lit (s w : str) : lang (Lit s) w <-> w = s.
Proof.
  revert w. induction s as [| c s IH]; intros w; cbn [Lit].
  - split; [apply lang_eps_inv | intros ->; constructor].
  - rewrite lang_seq_iff. split.
    + intros (u & v & -> & Hu & Hv). apply lang_chr in Hu. apply IH in Hv.
      now subst.
    + intros ->. exists [c], s. split; [reflexivity |].
      split; [now apply lang_chr | now apply IH].
Qed.

Lemma lang_oneOf (rs : list regex) (w : str) :
  lang (OneOf rs) w <-> exists r, In r rs /\ lang r w.
Proof.
  induction rs as [| r rs IH]; cbn [OneOf].
  - split; [intros H; inversion H | intros (r & [] & _)].
  - destruct rs as [| r' rs].
    + split.
      * intros H. exists r. split; [now left | exact H].
      * intros (x & [<- | []] & H). exact H.
    + rewrite lang_alt_iff, IH. split.
      * intros [H | (x & Hin & H)].
        -- exists r. split; [now left | exact H].
        -- exists x. split; [now right | exact H].
      * intros (x & [<- | Hin] & H); [now left |].
        right. now exists x.
Qed.

Lemma lang_opt (r : regex) (w : str) : lang (Opt r) w <-> w = [] \/ lang r w.
Proof.
  unfold Opt. rewrite lang_alt_iff. split.
  - intros [H | H]; [left; now apply lang_eps_inv | now right].
  - intros [-> | H]; [left; constructor | now right].
Qed.

(** A pattern anchored at the start only: some prefix of the string is in
    the language. *)
Lemma test_from_start (r : regex) (s : str) :
  test {| fromStart := true; body := r; toEnd := false |} s = true
  <-> exists w rest, s = w ++ rest /\ lang r w.
Proof.
  unfold test. cbn [fromStart body toEnd].
  rewrite matches_lang, lang_seq_iff. split.
  - intros (u & v & -> & Hu & Hv). apply lang_eps_inv in Hu. subst u.
    apply lang_seq_inv in Hv as (w & rest & -> & Hw & _). now exists w, rest.
  - intros (w & rest & -> & Hw). exists [], (w ++ rest).
    split; [reflexivity |]. split; [constructor |].
    constructor; [exact Hw | apply lang_star_any].
Qed.

(** A pattern anchored at the end only: some suffix of the string is in
    the language. *)
Lemma test_to_end (r : regex) (s : str) :
  test {| fromStart := false; body := r; toEnd := true |} s = true
  <-> exists stem w, s = stem ++ w /\ lang r w.
Proof.
  unfold test. cbn [fromStart body toEnd].
  rewrite matches_lang, lang_seq_iff. split.
  - intros (u & v & -> & _ & Hv).
    apply lang_seq_inv in Hv as (w & e & -> & Hw & He).
    apply lang_eps_inv in He. subst e. rewrite app_nil_r. now exists u, w.
  - intros (stem & w & -> & Hw). exists stem, w.
    split; [reflexivity |]. split; [apply lang_star_any |].
    rewrite <- (app_nil_r w). constructor; [exact Hw | constructor].
Qed.

End RegexFacts.

(** ** More on validation *)

Section ValidateMore.

Ltac split_tests :=
  repeat match goal with
         | |- context [if ?c then _ else _] =>
             lazymatch type of c with bool => destruct c eqn:? end
         end.

Ltac split_tests_in H :=
  repeat match type of H with
         | context [if ?c then _ else _] =>
             lazymatch type of c with bool => destruct c eqn:? end
         end.

(** The conventional pattern accepts exactly the first lines of the shape
    [type(scope): description]: a commit type, an optional scope in
    parentheses, a colon, a space and one more character that is not a
    line terminator; what follows is free. *)
Theorem conventionalRegex_shape (firstLine : str) :
  test conventionalRegex firstLine = true <-> conventionalShape firstLine.
Proof.
  unfold conventionalRegex, conventionalShape. rewrite test_from_start.
  split.
  - intros (w & rest & -> & H).
    apply lang_seq_inv in H as (ty & x1 & -> & Hty & H).
    apply lang_seq_inv in H as (sc & x2 & -> & Hsc & H).
    apply lang_seq_inv in H as (col & de & -> & Hcol & Hde).
    apply lang_oneOf in Hty as (r & Hr & Hty).
    apply in_map_iff in Hr as (t & <- & Ht). apply lang_lit in Hty. subst ty.
    apply lang_lit in Hcol. subst col.
    apply lang_plus_cls in Hde as [Hne Hde].
    destruct de as [| d de]; [contradiction |].
    cbn [forallb] in Hde. apply andb_true_iff in Hde as [Hd _].
    apply negb_true_iff in Hd.
    exists t, sc, d, (de ++ rest). split; [| split; [exact Ht | split]].
    + now rewrite <- !app_assoc.
    + apply lang_opt in Hsc as [-> | Hsc]; [now left | right].
      apply lang_seq_inv in Hsc as (o & y & -> & Ho & Hsc).
      apply lang_seq_inv in Hsc as (inner & cl & -> & Hin & Hcl).
      apply lang_chr in Ho. apply lang_chr in Hcl. subst o cl.
      apply lang_plus_cls in Hin as [Hne' Hin].
      exists inner. now repeat split.
    + exact Hd.
  - intros (t & sc & d & rest & -> & Ht & Hsc & Hd).
    exists (t ++ sc ++ lit ": " ++ [d]), rest.
    split; [now rewrite <- !app_assoc |].
    constructor.
    + apply lang_oneOf. exists (Lit t).
      split; [now apply in_map | now apply lang_lit].
    + constructor; [| constructor; [now apply lang_lit |]].
      * apply lang_opt. destruct Hsc as [-> | (inner & -> & Hne & Hin)];
          [now left | right].
        change (LPAREN :: inner ++ [RPAREN])
          with ([LPAREN] ++ inner ++ [RPAREN]).
        constructor; [now apply lang_chr |].
        constructor; [| now apply lang_chr].
        now apply lang_plus_cls.
      * apply lang_plus_cls. split; [discriminate |].
        cbn [forallb]. now rewrite Hd.
Qed.

(** A message is valid exactly when its first line has at most 72
    characters and, under the conventional format, the conventional shape;
    under any other format the length alone decides. *)
Theorem validateMessage_valid_iff (message format : str) :
  let firstLine := first (split message NL) in
  valid (validateMessage message format) = true
  <-> len firstLine <= 72
      /\ (format = conventional -> conventionalShape firstLine).
Proof.
  cbv zeta. rewrite valid_reads_errors, <- conventionalRegex_shape.
  unfold validateMessage.
  destruct (72 <? len _) eqn:E72.
  - apply Z.ltb_lt in E72. split_tests; cbn; split;
      solve [discriminate | intros [H _]; lia].
  - apply Z.ltb_ge in E72.
    destruct (str_eqb format conventional) eqn:Ef.
    + apply str_eqb_eq in Ef.
      destruct (test conventionalRegex _) eqn:Et; cbn [negb];
        split_tests; cbn; split;
        solve [ discriminate | tauto
              | intros [_ H]; specialize (H Ef); discriminate H ].
    + assert (Hf : format <> conventional).
      { intros H. apply str_eqb_eq in H. congruence. }
      split_tests; cbn; split; solve [discriminate | tauto].
Qed.

(** The findings of [validateMessage] written out. *)
Lemma validateMessage_findings (message format : str) :
  let lines := split message NL in
  let firstLine := first lines in
  let r := validateMessage message format in
  errors r
  = (if 72 <? len firstLine then [errTooLong] else [])
    ++ (if str_eqb format conventional && negb (test conventionalRegex firstLine)
        then [errFormat] else [])
  /\ warnings r
     = (if (50 <? len firstLine) && negb (72 <? len firstLine)
        then [warnLong] else [])
       ++ (if test verbEndingRegex
                (first (split (stripLeadingToken firstLine) SP))
           then [warnMood] else [])
       ++ (if (1 <? arrayLength lines) && negb (str_eqb (nth 1 lines []) [])
           then [warnBlankLine] else []).
Proof.
  cbv zeta. unfold validateMessage.
  destruct (72 <? len _); destruct (50 <? len _);
    destruct (str_eqb format conventional);
    destruct (test conventionalRegex _);
    destruct (test verbEndingRegex _);
    destruct (_ && negb (str_eqb _ _)); split; reflexivity.
Qed.

(** Of the two findings on the length of the first line at most one is
    made: the error beyond 72 characters, the warning from 51 to 72. *)
Theorem validateMessage_length_findings (message format : str) :
  let firstLine := first (split message NL) in
  let r := validateMessage message format in
  (In errTooLong (errors r) <-> 72 < len firstLine)
  /\ (In warnLong (warnings r) <-> 50 < len firstLine <= 72).
Proof.
  cbv zeta.
  destruct (validateMessage_findings message format) as [He Hw].
  cbv zeta in He, Hw. rewrite He, Hw. clear He Hw.
  destruct (72 <? len _) eqn:E72; destruct (50 <? len _) eqn:E50;
    try apply Z.ltb_lt in E72; try apply Z.ltb_ge in E72;
    try apply Z.ltb_lt in E50; try apply Z.ltb_ge in E50;
    cbn [andb negb app];
    split_tests; cbn [app]; split; split;
      try solve [ lia | intros _; now left | intros [_ H]; lia ];
      intros H; exfalso;
      repeat (destruct H as [H | H]; [cbv in H; discriminate H |]);
      try exact H; try lia.
Qed.

(** The blank-line warning is made exactly when the message has a second
    line and that line is not empty. *)
Theorem validateMessage_blank_line (message format : str) :
  In warnBlankLine (warnings (validateMessage message format))
  <-> exists l0 l1 rest, split message NL = l0 :: l1 :: rest /\ l1 <> [].
Proof.
  destruct (validateMessage_findings message format) as [_ Hw].
  cbv zeta in Hw. rewrite Hw. clear Hw.
  assert (Hcond :
    (1 <? arrayLength (split message NL))
    && negb (str_eqb (nth 1 (split message NL) []) []) = true
    <-> exists l0 l1 rest, split message NL = l0 :: l1 :: rest /\ l1 <> []).
  { destruct (split message NL) as [| l0 [| l1 rest]].
    - cbn. split; [discriminate | intros (? & ? & ? & H & _); discriminate].
    - cbn. split; [discriminate | intros (? & ? & ? & H & _); discriminate].
    - replace (1 <? arrayLength (l0 :: l1 :: rest)) with true
        by (symmetry; apply Z.ltb_lt; unfold arrayLength; simpl; lia).
      cbn [nth andb]. rewrite negb_true_iff. split.
      + intros H. exists l0, l1, rest. split; [reflexivity |].
        intros ->. discriminate.
      + intros (a & b & c & [= <- <- <-] & Hne).
        destruct (str_eqb l1 []) eqn:E; [| reflexivity].
        apply str_eqb_eq in E. contradiction. }
  rewrite <- Hcond.
  destruct ((1 <? arrayLength _) && negb _).
  - split; [reflexivity | intros _].
    apply in_or_app. right. apply in_or_app. right. now left.
  - split; [| discriminate]. intros H. exfalso.
    split_tests_in H; cbn [app] in H;
      repeat (destruct H as [H | H]; [cbv in H; discriminate H |]);
      exact H.
Qed.

Lemma lang_litI (s w : str) :
  lang (LitI s) w <-> map toUpperAscii w = map toUpperAscii s.
Proof.
  revert w. induction s as [| c s IH]; intros w; cbn [LitI map].
  - split.
    + intros H. apply lang_eps_inv in H. now subst.
    + intros H. destruct w; [constructor | discriminate].
  - rewrite lang_seq_iff. split.
    + intros (u & v & -> & Hu & Hv).
      apply lang_cls_inv in Hu as (x & -> & Hx). apply char_eqb_eq in Hx.
      apply IH in Hv. cbn [app map]. now rewrite Hx, Hv.
    + intros H. destruct w as [| x w]; [discriminate |].
      cbn [map] in H. injection H as Hx Hw.
      exists [x], w. split; [reflexivity |]. split.
      * constructor. now apply char_eqb_eq.
      * now apply IH.
Qed.

(** The mood warning is made exactly when the first word behind the
    leading [prefix:] ends in [ed], [ing] or [s], in any letter case. *)
Theorem validateMessage_mood (message format : str) :
  let firstLine := first (split message NL) in
  let firstWord := first (split (stripLeadingToken firstLine) SP) in
  In warnMood (warnings (validateMessage message format))
  <-> exists stem ending,
        firstWord = stem ++ ending
        /\ In (map toUpperAscii ending) [lit "ED"; lit "ING"; lit "S"].
Proof.
  cbv zeta.
  destruct (validateMessage_findings message format) as [_ Hw].
  cbv zeta in Hw. rewrite Hw. clear Hw.
  set (firstWord := first (split (stripLeadingToken _) SP)).
  assert (Hcond :
    test verbEndingRegex firstWord = true
    <-> exists stem ending,
          firstWord = stem ++ ending
          /\ In (map toUpperAscii ending) [lit "ED"; lit "ING"; lit "S"]).
  { unfold verbEndingRegex. rewrite test_to_end. split.
    - intros (stem & w & -> & H). exists stem, w. split; [reflexivity |].
      apply lang_oneOf in H as (r & [<- | [<- | [<- | []]]] & H);
        apply lang_litI in H; rewrite H; cbn; tauto.
    - intros (stem & w & -> & H). exists stem, w. split; [reflexivity |].
      apply lang_oneOf.
      destruct H as [H | [H | [H | []]]].
      + exists (LitI (lit "ed")). split; [now left |].
        apply lang_litI. now rewrite <- H.
      + exists (LitI (lit "ing")). split; [right; now left |].
        apply lang_litI. now rewrite <- H.
      + exists (LitI (lit "s")). split; [right; right; now left |].
        apply lang_litI. now rewrite <- H. }
  rewrite <- Hcond.
  destruct (test verbEndingRegex firstWord).
  - split; [reflexivity | intros _].
    apply in_or_app. right. apply in_or_app. left. now left.
  - split; [| discriminate]. intros H. exfalso.
    split_tests_in H; cbn [app] in H;
      repeat (destruct H as [H | H]; [cbv in H; discriminate H |]);
      exact H.
Qed.

End ValidateMore.

(** ** More on suggestions *)

Section SuggestionsMore.

Variables (message : str) (status : GitStatus) (diff : DiffValue).

(** The suggestions written out: the three heuristics in the order tests,
    documentation, breaking change, then every error of the validation as
    an [error] and every warning as a [warning].  The guard on [valid]
    hides no error. *)
Theorem getSuggestions_order :
  getSuggestions message status diff
  = (if hasCodeChanges status && negb (hasTestChanges status)
     then [suggestTests] else [])
    ++ (if hasPublicAPIChanges diff && negb (hasDocChanges status)
        then [suggestDocs] else [])
    ++ (if diffIncludes diff (lit "BREAKING")
           || diffIncludes diff (lit "breaking")
           || (0 <? arrayLength (deleted status))
        then [suggestBreaking] else [])
    ++ map errorSuggestion (errors (validateMessage message conventional))
    ++ map warningSuggestion
         (warnings (validateMessage message conventional)).
Proof.
  unfold getSuggestions. rewrite valid_reads_errors.
  destruct (hasCodeChanges status && negb (hasTestChanges status));
    destruct (hasPublicAPIChanges diff && negb (hasDocChanges status));
    destruct (_ || (0 <? arrayLength (deleted status)));
    destruct (errors (validateMessage message conventional)) as [| e es];
    destruct (warnings (validateMessage message conventional)) as [| x xs];
    cbn [negb map app];
    rewrite ?app_nil_r;
    try replace (0 <? arrayLength (x :: xs)) with true
      by (unfold arrayLength; simpl; lia);
    try replace (0 <? @arrayLength str []) with false by reflexivity;
    cbn [map app]; rewrite <- ?app_assoc; try reflexivity.
Qed.

Lemma warnings_known (w : str) :
  In w (warnings (validateMessage message conventional)) ->
  w = warnLong \/ w = warnMood \/ w = warnBlankLine.
Proof.
  destruct (validateMessage_findings message conventional) as [_ Hw].
  cbv zeta in Hw. rewrite Hw. clear Hw. intros H.
  repeat match type of H with
         | context [if ?c then _ else _] => destruct c
         end;
    cbn [app] in H;
    repeat (destruct H as [H | H]; [subst w; tauto |]); destruct H.
Qed.

(** A heuristic suggestion is none of the suggestions made from the
    validation. *)
Lemma heuristic_not_finding (s : Suggestion.t) :
  s = suggestTests \/ s = suggestDocs \/ s = suggestBreaking ->
  ~ In s (map errorSuggestion (errors (validateMessage message conventional))
          ++ map warningSuggestion (warnings (validateMessage message conventional))).
Proof.
  intros Hs H. apply in_app_or in H as [H | H];
    apply in_map_iff in H as (x & Hx & Hin).
  - apply (f_equal Suggestion.type) in Hx. cbn in Hx.
    destruct Hs as [-> | [-> | ->]]; cbv in Hx; discriminate Hx.
  - apply warnings_known in Hin.
    apply (f_equal Suggestion.message) in Hx. cbn in Hx.
    destruct Hs as [-> | [-> | ->]];
      destruct Hin as [-> | [-> | ->]]; cbv in Hx; discriminate Hx.
Qed.

Lemma in_heuristics (s : Suggestion.t) (a b c : bool) :
  s = suggestTests \/ s = suggestDocs \/ s = suggestBreaking ->
  In s ((if a then [suggestTests] else [])
        ++ (if b then [suggestDocs] else [])
        ++ (if c then [suggestBreaking] else [])
        ++ map errorSuggestion (errors (validateMessage message conventional))
        ++ map warningSuggestion (warnings (validateMessage message conventional)))
  <-> (s = suggestTests /\ a = true)
      \/ (s = suggestDocs /\ b = true)
      \/ (s = suggestBreaking /\ c = true).
Proof.
  intros Hs. pose proof (heuristic_not_finding s Hs) as Hnot.
  split.
  - intros H.
    apply in_app_or in H as [H | H];
      [destruct a; [destruct H as [<- | []]; tauto | destruct H] |].
    apply in_app_or in H as [H | H];
      [destruct b; [destruct H as [<- | []]; tauto | destruct H] |].
    apply in_app_or in H as [H | H];
      [destruct c; [destruct H as [<- | []]; tauto | destruct H] |].
    contradiction.
  - intros [[-> ->] | [[-> ->] | [-> ->]]].
    + apply in_or_app. left. now left.
    + apply in_or_app. right. apply in_or_app. left. now left.
    + apply in_or_app. right. apply in_or_app. right.
      apply in_or_app. left. now left.
Qed.

(** The documentation suggestion is made exactly when the diff includes
    [export] or [public] and no added or modified path is a document. *)
Theorem getSuggestions_documentation_iff :
  In suggestDocs (getSuggestions message status diff)
  <-> (diffIncludes diff (lit "export") = true
       \/ diffIncludes diff (lit "public") = true)
      /\ (forall file, In file (added status ++ modified status) ->
            test docFileRegex file = false
            /\ includes (toLowerCase file) (lit "readme") = false).
Proof.
  rewrite getSuggestions_order, in_heuristics by tauto.
  assert (Hdoc : hasDocChanges status = false
                 <-> forall file, In file (added status ++ modified status) ->
                       test docFileRegex file = false
                       /\ includes (toLowerCase file) (lit "readme") = false).
  { split; [| apply hasDocChanges_false].
    unfold hasDocChanges. intros H file Hin.
    destruct (test docFileRegex file
              || includes (toLowerCase file) (lit "readme")) eqn:E.
    - assert (Hex : existsb (fun f => test docFileRegex f
                                      || includes (toLowerCase f) (lit "readme"))
                            (added status ++ modified status) = true)
        by (apply existsb_exists; now exists file).
      congruence.
    - now apply orb_false_iff in E. }
  rewrite <- Hdoc. unfold hasPublicAPIChanges.
  split.
  - intros [[H _] | [[_ H] | [H _]]];
      [cbv in H; discriminate H | | cbv in H; discriminate H].
    apply andb_true_iff in H as [H1 H2].
    apply orb_true_iff in H1. apply negb_true_iff in H2. tauto.
  - intros [H1 H2]. right. left. split; [reflexivity |].
    apply andb_true_iff. split;
      [now apply orb_true_iff | now apply negb_true_iff].
Qed.

(** The breaking-change suggestion is made exactly when the diff includes
    [BREAKING] or [breaking], or a file was deleted. *)
Theorem getSuggestions_breaking_iff :
  In suggestBreaking (getSuggestions message status diff)
  <-> diffIncludes diff (lit "BREAKING") = true
      \/ diffIncludes diff (lit "breaking") = true
      \/ deleted status <> [].
Proof.
  rewrite getSuggestions_order, in_heuristics by tauto.
  assert (Hdel : (0 <? arrayLength (deleted status)) = true
                 <-> deleted status <> []).
  { destruct (deleted status); cbn.
    - split; [discriminate | intros H; now elim H].
    - split; [discriminate | reflexivity]. }
  rewrite <- Hdel. split.
  - intros [[H _] | [[H _] | [_ H]]];
      [cbv in H; discriminate H | cbv in H; discriminate H |].
    apply orb_true_iff in H as [H | H]; [| tauto].
    apply orb_true_iff in H. tauto.
  - intros H. right. right. split; [reflexivity |].
    rewrite !orb_true_iff. tauto.
Qed.

(** The tests suggestion is made exactly when some added or modified path
    ends in a dot and one of the code extensions, and no added or modified
    path contains [test] or [spec]. *)
Theorem getSuggestions_tests_iff :
  In suggestTests (getSuggestions message status diff)
  <-> (exists file stem ext,
         In file (added status ++ modified status)
         /\ file = stem ++ DOT :: ext
         /\ In ext (map lit ["js"; "ts"; "py"; "java"; "go"; "rs"; "cpp";
                             "c"]%string))
      /\ (forall file, In file (added status ++ modified status) ->
            includes file (lit "test") = false
            /\ includes file (lit "spec") = false).
Proof.
  rewrite getSuggestions_order, in_heuristics by tauto.
  assert (Hcode : hasCodeChanges status = true
                  <-> exists file stem ext,
                        In file (added status ++ modified status)
                        /\ file = stem ++ DOT :: ext
                        /\ In ext (map lit ["js"; "ts"; "py"; "java"; "go";
                                            "rs"; "cpp"; "c"]%string)).
  { unfold hasCodeChanges. rewrite existsb_exists. split.
    - intros (file & Hin & Ht). unfold codeFileRegex in Ht.
      apply test_to_end in Ht as (stem & w & -> & Hw).
      apply lang_seq_inv in Hw as (dot & ext & -> & Hdot & Hext).
      apply lang_chr in Hdot. subst dot.
      apply lang_oneOf in Hext as (r & Hr & Hext).
      apply in_map_iff in Hr as (e & <- & He). apply lang_lit in Hext.
      subst ext. exists (stem ++ [DOT] ++ lit e), stem, (lit e).
      split; [exact Hin |]. split; [reflexivity | now apply in_map].
    - intros (file & stem & ext & Hin & -> & Hext).
      exists (stem ++ DOT :: ext). split; [exact Hin |].
      unfold codeFileRegex. apply test_to_end.
      exists stem, (DOT :: ext). split; [reflexivity |].
      change (DOT :: ext) with ([DOT] ++ ext).
      constructor; [now apply lang_chr |].
      apply lang_oneOf. apply in_map_iff in Hext as (e & <- & He).
      exists (Lit (lit e)). split; [| now apply lang_lit].
      apply in_map_iff. now exists e. }
  assert (Htest : hasTestChanges status = false
                  <-> forall file, In file (added status ++ modified status) ->
                        includes file (lit "test") = false
                        /\ includes file (lit "spec") = false).
  { unfold hasTestChanges. split.
    - intros H file Hin.
      destruct (includes file (lit "test") || includes file (lit "spec"))
        eqn:E; [| now apply orb_false_iff in E].
      assert (Hex : existsb (fun f => includes f (lit "test")
                                      || includes f (lit "spec"))
                            (added status ++ modified status) = true)
        by (apply existsb_exists; now exists file).
      congruence.
    - intros H. destruct (existsb _ _) eqn:E; [| reflexivity].
      apply existsb_exists in E as (file & Hin & Hf).
      destruct (H file Hin) as [H1 H2]. rewrite H1, H2 in Hf. discriminate. }
  rewrite <- Hcode, <- Htest.
  split.
  - intros [[_ H] | [[H _] | [H _]]];
      [| cbv in H; discriminate H | cbv in H; discriminate H].
    apply andb_true_iff in H as [H1 H2]. apply negb_true_iff in H2. tauto.
  - intros [H1 H2]. left. split; [reflexivity |].
    apply andb_true_iff. split; [exact H1 | now apply negb_true_iff].
Qed.

End SuggestionsMore.

(** ** More on truncation and on the pipeline *)

Section TruncateMore.

(** A diff over a budget [m >= 0] is cut to a prefix of [n] characters
    with [0.8 * m <= n <= m], followed by two newlines and the marker;
    unless the cut is at the budget itself, the character behind the
    prefix is a newline. *)
Theorem truncateDiff_keeps_prefix (d : str) (m : Z) :
  0 <= m -> m < len d ->
  exists n,
    truncateDiff d m = firstn (Z.to_nat n) d ++ NL :: NL :: marker
    /\ 4 * m <= 5 * n <= 5 * m
    /\ len (truncateDiff d m) = n + len marker + 2
    /\ (n = m \/ nth_error d (Z.to_nat n) = Some NL).
Proof.
  intros Hm Hlen. rewrite (truncateDiff_over d m Hlen).
  pose proof (lastIndexOf_range (substring d 0 m) NL) as Hr.
  pose proof (len_substring_0 d m) as Hl.
  destruct (4 * m <? 5 * _) eqn:E.
  - apply Z.ltb_lt in E.
    set (k := lastIndexOf (substring d 0 m) NL) in *.
    assert (H0 : 0 <= k) by lia.
    destruct (lastIndexOf_lastNewlineAt d m H0) as (_ & Hnth & _).
    fold k in Hnth. exists k.
    rewrite !substring_0, firstn_firstn.
    replace (Nat.min (Z.to_nat k) (Z.to_nat m)) with (Z.to_nat k) by lia.
    split; [reflexivity |]. split; [lia |]. split; [| now right].
    rewrite len_app, len_firstn.
    pose proof len_truncationSuffix as Hs.
    unfold truncationSuffix in Hs |- *. rewrite Hs. lia.
  - apply Z.ltb_ge in E. exists m. rewrite substring_0.
    split; [reflexivity |]. split; [lia |]. split; [| now left].
    rewrite len_app, len_firstn.
    pose proof len_truncationSuffix as Hs.
    unfold truncationSuffix in Hs |- *. rewrite Hs. lia.
Qed.

Lemma truncateDiff_keeps_prefix_witness :
  exists n,
    truncateDiff (lit "aaaaaaaaa" ++ NL :: lit "bbb") 11
    = firstn (Z.to_nat n) (lit "aaaaaaaaa" ++ NL :: lit "bbb")
      ++ NL :: NL :: marker
    /\ 4 * 11 <= 5 * n <= 5 * 11
    /\ len (truncateDiff (lit "aaaaaaaaa" ++ NL :: lit "bbb") 11)
       = n + len marker + 2
    /\ (n = 11
        \/ nth_error (lit "aaaaaaaaa" ++ NL :: lit "bbb") (Z.to_nat n)
           = Some NL).
Proof.
  apply truncateDiff_keeps_prefix; [lia | reflexivity].
Defined.

(** Whatever the generator resolves to went through the post-processor:
    it is the processed form of some answer of the agent, and it is
    trimmed. *)
Theorem generateCommitMessage_result_processed (repo : Repo) (agent : Agent)
  (options : Options) (w w' : World) (message : str) :
  generateCommitMessage repo agent options w = (Resolved message, w') ->
  (exists prompt text,
     agent prompt = Resolved text
     /\ message = postProcessMessage text options
     /\ backendCalls w' = backendCalls w ++ [prompt])
  /\ trim message = message.
Proof.
  rewrite generateCommitMessage_step.
  destruct (fst (getDiffSummary repo w)) as [ds | e]; [| discriminate].
  destruct (hasChanges (status ds) tt); [| discriminate].
  cbv zeta. destruct (agent _) as [text |] eqn:E; [| discriminate].
  intros [= <- <-]. split.
  - eexists _, text. split; [exact E |]. split; reflexivity.
  - apply (postProcessMessage_trimmed text options).
Qed.

Lemma generateCommitMessage_result_processed_witness :
  let repo :=
    {| git_status :=
         Resolved {| sg_staged := [lit "a.ts"]; sg_modified := [];
                     sg_deleted := []; sg_not_added := [];
                     sg_conflicted := [] |};
       git_diff_cached := Resolved (lit "+export function f(){}");
       git_diff := Resolved [] |} in
  let agent : Agent := fun _ => Resolved (lit "  feat: add `f`  ") in
  let w := {| backendCalls := []; consoleLog := [] |} in
  let w' := snd (generateCommitMessage repo agent noOptions w) in
  (exists prompt text,
     agent prompt = Resolved text
     /\ lit "feat: add f" = postProcessMessage text noOptions
     /\ backendCalls w' = backendCalls w ++ [prompt])
  /\ trim (lit "feat: add f") = lit "feat: add f".
Proof.
  cbv zeta.
  apply (generateCommitMessage_result_processed
           {| git_status :=
                Resolved {| sg_staged := [lit "a.ts"]; sg_modified := [];
                            sg_deleted := []; sg_not_added := [];
                            sg_conflicted := [] |};
              git_diff_cached := Resolved (lit "+export function f(){}");
              git_diff := Resolved [] |}
           (fun _ => Resolved (lit "  feat: add `f`  "))
           noOptions
           {| backendCalls := []; consoleLog := [] |}).
  vm_compute. reflexivity.
Defined.

End TruncateMore.

(** ** Collapsed white space *)

Section Collapsed.

Lemma replaceAll_skip (m : str -> option (str * nat)) (s : str) :
  forall k, replaceAll m s k = replaceAll m (skipn k s) 0.
Proof.
  induction s as [| c s IH]; intros [| k]; try reflexivity.
  cbn [replaceAll skipn]. apply IH.
Qed.

Lemma char_eqb_sym (a b : char) : char_eqb a b = char_eqb b a.
Proof. apply N.eqb_sym. Qed.

(** What is left behind a run does not continue it. *)
Lemma after_run (p : char -> bool) (s : str) :
  match skipn (List.length (run p s)) s with
  | [] => True
  | y :: _ => p y = false
  end.
Proof.
  induction s as [| c s IH]; cbn [run]; [exact I |].
  destruct (p c) eqn:E; cbn [List.length skipn]; [exact IH | exact E].
Qed.

Lemma skipn_run_length (p : char -> bool) (s : str) :
  (List.length (skipn (List.length (run p s)) s) <= List.length s)%nat.
Proof. rewrite length_skipn. lia. Qed.

Lemma noTwo_cons (c x : char) (s : str) :
  noTwo c (x :: s)
  = negb (char_eqb x c
          && match s with y :: _ => char_eqb y c | [] => false end)
    && noTwo c s.
Proof.
  destruct s as [| y s]; cbn [noTwo]; [| reflexivity].
  now rewrite andb_false_r.
Qed.

Lemma noThree_cons (c x : char) (s : str) :
  noThree c (x :: s)
  = negb (char_eqb x c && (2 <=? List.length (run (char_eqb c) s))%nat)
    && noThree c s.
Proof.
  destruct s as [| y [| z s]]; cbn [noThree run].
  - cbn. now rewrite andb_false_r.
  - destruct (char_eqb c y); cbn; now rewrite andb_false_r.
  - rewrite (char_eqb_sym c y), (char_eqb_sym c z).
    destruct (char_eqb x c), (char_eqb y c), (char_eqb z c);
      cbn [andb negb List.length Nat.leb]; reflexivity.
Qed.

Lemma noTwo_skipn (c : char) (k : nat) :
  forall s, noTwo c s = true -> noTwo c (skipn k s) = true.
Proof.
  induction k as [| k IH]; intros s Hs; [exact Hs |].
  destruct s as [| y s]; [reflexivity |]. cbn [skipn]. apply IH.
  rewrite noTwo_cons in Hs. now apply andb_true_iff in Hs as [_ Hs].
Qed.

(** *** Runs of spaces *)

Lemma spaces_cons_space (s : str) :
  replaceAll matchSpaces (SP :: s) 0
  = SP :: replaceAll matchSpaces
            (skipn (List.length (run (char_eqb SP) s)) s) 0.
Proof.
  cbn [replaceAll]. unfold matchSpaces. cbn [run].
  rewrite char_eqb_refl. cbn [List.length Nat.pred app].
  now rewrite replaceAll_skip.
Qed.

Lemma spaces_cons_other (c : char) (s : str) :
  char_eqb SP c = false ->
  replaceAll matchSpaces (c :: s) 0 = c :: replaceAll matchSpaces s 0.
Proof.
  intros H. cbn [replaceAll]. unfold matchSpaces. cbn [run].
  now rewrite H.
Qed.

Lemma spaces_collapsed (n : nat) :
  forall s, (List.length s <= n)%nat ->
    noTwo SP (replaceAll matchSpaces s 0) = true
    /\ hd_error (replaceAll matchSpaces s 0) = hd_error s.
Proof.
  induction n as [| n IH]; intros [| c s] Hlen;
    try (split; reflexivity); [simpl in Hlen; lia |].
  simpl in Hlen. destruct (char_eqb SP c) eqn:E.
  - apply char_eqb_eq in E. subst c. rewrite spaces_cons_space.
    pose proof (after_run (char_eqb SP) s) as Hafter.
    pose proof (skipn_run_length (char_eqb SP) s) as Hshort.
    destruct (IH (skipn (List.length (run (char_eqb SP) s)) s)) as [H2 Hhd];
      [lia |].
    split; [| reflexivity].
    rewrite noTwo_cons, H2, andb_true_r.
    destruct (replaceAll matchSpaces _ 0) as [| y t];
      [reflexivity |].
    destruct (skipn _ s) as [| y' t']; [discriminate |].
    injection Hhd as ->. rewrite (char_eqb_sym y' SP), Hafter. reflexivity.
  - rewrite (spaces_cons_other c s E).
    destruct (IH s) as [H2 _]; [lia |].
    split; [| reflexivity].
    rewrite noTwo_cons, H2, (char_eqb_sym c SP), E. reflexivity.
Qed.

(** *** Runs of newlines *)

Lemma newlines_cons_other (c : char) (t : str) :
  char_eqb NL c = false ->
  replaceAll matchNewlines (c :: t) 0 = c :: replaceAll matchNewlines t 0.
Proof.
  intros H. cbn [replaceAll]. unfold matchNewlines. cbn [run].
  now rewrite H.
Qed.

Lemma newlines_cons_short (t : str) :
  (List.length (run (char_eqb NL) t) < 2)%nat ->
  replaceAll matchNewlines (NL :: t) 0
  = NL :: replaceAll matchNewlines t 0.
Proof.
  intros H. cbn [replaceAll]. unfold matchNewlines. cbn [run].
  rewrite char_eqb_refl. cbn [List.length].
  replace (3 <=? S (List.length (run (char_eqb NL) t)))%nat with false
    by (symmetry; apply Nat.leb_gt; lia).
  reflexivity.
Qed.

Lemma newlines_cons_long (t : str) :
  (2 <= List.length (run (char_eqb NL) t))%nat ->
  replaceAll matchNewlines (NL :: t) 0
  = NL :: NL :: replaceAll matchNewlines
                  (skipn (List.length (run (char_eqb NL) t)) t) 0.
Proof.
  intros H. cbn [replaceAll]. unfold matchNewlines. cbn [run].
  rewrite char_eqb_refl. cbn [List.length].
  replace (3 <=? S (List.length (run (char_eqb NL) t)))%nat with true
    by (symmetry; apply Nat.leb_le; lia).
  cbn [Nat.pred app]. now rewrite replaceAll_skip.
Qed.

Lemma run_head_false (p : char -> bool) (s : str) :
  match s with [] => True | y :: _ => p y = false end ->
  run p s = [].
Proof. destruct s as [| y s]; [reflexivity |]. cbn [run]. now intros ->. Qed.

Lemma newlines_collapsed (n : nat) :
  forall t, (List.length t <= n)%nat ->
    let t' := replaceAll matchNewlines t 0 in
    hd_error t' = hd_error t
    /\ noThree NL t' = true
    /\ List.length (run (char_eqb NL) t')
       = Nat.min (List.length (run (char_eqb NL) t)) 2
    /\ (noTwo SP t = true -> noTwo SP t' = true).
Proof.
  induction n as [| n IH]; intros [| c t] Hlen; cbv zeta;
    try (repeat split; reflexivity); [simpl in Hlen; lia |].
  simpl in Hlen. destruct (char_eqb NL c) eqn:E.
  - apply char_eqb_eq in E. subst c.
    destruct (Nat.le_gt_cases 2 (List.length (run (char_eqb NL) t)))
      as [Hlong | Hshort].
    + rewrite (newlines_cons_long t Hlong).
      pose proof (after_run (char_eqb NL) t) as Hafter.
      pose proof (skipn_run_length (char_eqb NL) t) as Hs.
      set (u := skipn (List.length (run (char_eqb NL) t)) t) in *.
      destruct (IH u) as (Hhd & H3 & Hrun & H2); [lia |].
      cbv zeta in *.
      assert (Hu : run (char_eqb NL) u = []) by now apply run_head_false.
      rewrite Hu in Hrun. cbn in Hrun.
      split; [reflexivity |]. split; [| split].
      * rewrite !noThree_cons, H3, Hrun. cbn [run].
        rewrite char_eqb_refl. cbn [List.length]. rewrite Hrun. reflexivity.
      * cbn [run]. rewrite !char_eqb_refl. cbn [List.length].
        rewrite Hrun. lia.
      * intros Ht. rewrite !noTwo_cons.
        replace (char_eqb NL SP) with false by reflexivity.
        cbn [andb negb]. apply H2. unfold u. apply noTwo_skipn.
        rewrite noTwo_cons in Ht. now apply andb_true_iff in Ht as [_ Ht].
    + rewrite (newlines_cons_short t Hshort).
      destruct (IH t) as (Hhd & H3 & Hrun & H2); [lia |].
      cbv zeta in *.
      split; [reflexivity |]. split; [| split].
      * rewrite noThree_cons, H3, Hrun.
        replace (2 <=? Nat.min (List.length (run (char_eqb NL) t)) 2)%nat
          with false by (symmetry; apply Nat.leb_gt; lia).
        now rewrite andb_false_r.
      * cbn [run]. rewrite char_eqb_refl. cbn [List.length].
        rewrite Hrun. lia.
      * intros Ht. rewrite noTwo_cons in Ht |- *.
        replace (char_eqb NL SP) with false in * by reflexivity.
        cbn [andb negb] in *. now apply H2.
  - rewrite (newlines_cons_other c t E).
    destruct (IH t) as (Hhd & H3 & Hrun & H2); [lia |].
    cbv zeta in *.
    split; [reflexivity |]. split; [| split].
    + rewrite noThree_cons, H3, (char_eqb_sym c NL), E. reflexivity.
    + cbn [run]. now rewrite E.
    + intros Ht. rewrite noTwo_cons in Ht |- *.
      apply andb_true_iff in Ht as [Hc Ht]. rewrite (H2 Ht), andb_true_r.
      destruct (replaceAll matchNewlines t 0) as [| y r];
        [now rewrite andb_false_r |].
      destruct t as [| y' t']; [discriminate |].
      injection Hhd as ->. exact Hc.
Qed.

(** The cleaned text has no two spaces in a row and no three newlines in a
    row. *)
Theorem cleaned_collapsed (raw : str) :
  noTwo SP (cleaned raw) = true /\ noThree NL (cleaned raw) = true.
Proof.
  unfold cleaned.
  set (t := replaceAll matchSpaces _ 0).
  assert (Ht : noTwo SP t = true).
  { unfold t. eapply spaces_collapsed. reflexivity. }
  destruct (newlines_collapsed (List.length t) t (Nat.le_refl _))
    as (_ & H3 & _ & H2).
  split; [now apply H2 | exact H3].
Qed.

(** *** Parts of a string *)

Lemma partOf_refl (s : str) : partOf s s.
Proof. exists [], []. now rewrite app_nil_r. Qed.

Lemma partOf_trans (p q s : str) : partOf p q -> partOf q s -> partOf p s.
Proof.
  intros (a & b & ->) (a' & b' & ->). exists (a' ++ a), (b ++ b').
  now rewrite <- !app_assoc.
Qed.

Lemma partOf_firstn (n : nat) (s : str) : partOf (firstn n s) s.
Proof. exists [], (skipn n s). cbn [app]. now rewrite firstn_skipn. Qed.

Lemma partOf_skipn (n : nat) (s : str) : partOf (skipn n s) s.
Proof.
  exists (firstn n s), []. now rewrite app_nil_r, firstn_skipn.
Qed.

Lemma partOf_substring (s : str) (a b : Z) : partOf (substring s a b) s.
Proof.
  unfold substring. eapply partOf_trans;
    [apply partOf_firstn | apply partOf_skipn].
Qed.

Lemma partOf_trimStart (s : str) : partOf (trimStart s) s.
Proof.
  destruct (trimStart_suffix s) as (a & Ha). exists a, [].
  now rewrite app_nil_r.
Qed.

Lemma partOf_trimEnd (s : str) : partOf (trimEnd s) s.
Proof. destruct (trimEnd_prefix s) as (q & Hq). now exists [], q. Qed.

Lemma partOf_trim (s : str) : partOf (trim s) s.
Proof.
  unfold trim. eapply partOf_trans;
    [apply partOf_trimEnd | apply partOf_trimStart].
Qed.

Lemma partOf_In (p s : str) (x : char) : partOf p s -> In x p -> In x s.
Proof.
  intros (a & b & ->) H. apply in_or_app. right. apply in_or_app. now left.
Qed.

Lemma noTwo_app_r (c : char) (a b : str) :
  noTwo c (a ++ b) = true -> noTwo c b = true.
Proof.
  induction a as [| y a IH]; [trivial |]. cbn [app].
  rewrite noTwo_cons. intros H. apply andb_true_iff in H as [_ H]. auto.
Qed.

Lemma noTwo_app_l (c : char) (a b : str) :
  noTwo c (a ++ b) = true -> noTwo c a = true.
Proof.
  induction a as [| y a IH]; [reflexivity |]. cbn [app].
  rewrite !noTwo_cons. intros H. apply andb_true_iff in H as [H1 H2].
  rewrite (IH H2), andb_true_r.
  destruct a as [| z a]; [now rewrite andb_false_r | exact H1].
Qed.

Lemma noTwo_partOf (c : char) (p s : str) :
  partOf p s -> noTwo c s = true -> noTwo c p = true.
Proof.
  intros (a & b & ->) H. apply noTwo_app_r in H. now apply noTwo_app_l in H.
Qed.

(** Joining two strings at a character [x]. *)
Lemma noTwo_app_at (c : char) (a : str) (x : char) (b : str) :
  noTwo c (a ++ x :: b) = noTwo c (a ++ [x]) && noTwo c (x :: b).
Proof.
  induction a as [| y a IH]; [reflexivity |]. cbn [app].
  rewrite (noTwo_cons c y (a ++ x :: b)), (noTwo_cons c y (a ++ [x])), IH.
  rewrite andb_assoc. destruct a; reflexivity.
Qed.

Lemma noTwo_snoc_other (c : char) (a : str) (x : char) :
  char_eqb x c = false -> noTwo c (a ++ [x]) = noTwo c a.
Proof.
  intros Hx. induction a as [| y a IH]; [reflexivity |]. cbn [app].
  rewrite (noTwo_cons c y (a ++ [x])), (noTwo_cons c y a), IH.
  destruct a as [| z a]; [| reflexivity].
  cbn [app]. now rewrite Hx.
Qed.

Lemma noThree_app_r (c : char) (a b : str) :
  noThree c (a ++ b) = true -> noThree c b = true.
Proof.
  induction a as [| y a IH]; [trivial |]. cbn [app].
  rewrite noThree_cons. intros H. apply andb_true_iff in H as [_ H]. auto.
Qed.

Lemma run_app_le (p : char -> bool) (a b : str) :
  (List.length (run p a) <= List.length (run p (a ++ b)))%nat.
Proof.
  induction a as [| y a IH]; cbn [app run]; [simpl; lia |].
  destruct (p y); simpl; lia.
Qed.

Lemma noThree_app_l (c : char) (a b : str) :
  noThree c (a ++ b) = true -> noThree c a = true.
Proof.
  induction a as [| y a IH]; [reflexivity |]. cbn [app].
  rewrite !noThree_cons. intros H. apply andb_true_iff in H as [H1 H2].
  rewrite (IH H2), andb_true_r.
  destruct (char_eqb y c); [| reflexivity]. cbn [andb] in *.
  apply negb_true_iff in H1. apply Nat.leb_gt in H1.
  apply negb_true_iff. apply Nat.leb_gt.
  pose proof (run_app_le (char_eqb c) a b). lia.
Qed.

Lemma noThree_partOf (c : char) (p s : str) :
  partOf p s -> noThree c s = true -> noThree c p = true.
Proof.
  intros (a & b & ->) H. apply noThree_app_r in H.
  now apply noThree_app_l in H.
Qed.

Lemma noThree_app_free (c : char) (x t : str) :
  ~ In c x -> noThree c (x ++ t) = noThree c t.
Proof.
  induction x as [| y x IH]; intros Hx; [reflexivity |]. cbn [app].
  rewrite noThree_cons, IH by (intros H; apply Hx; now right).
  destruct (char_eqb y c) eqn:E; [| reflexivity].
  apply char_eqb_eq in E. exfalso. apply Hx. now left.
Qed.

Lemma join_tail (rest : list str) :
  exists tail,
    (forall l, join [NL] (l :: rest) = l ++ tail)
    /\ (tail = [] \/ exists v, tail = NL :: v).
Proof.
  destruct rest as [| l' rest].
  - exists []. split; [intros l; symmetry; apply app_nil_r | now left].
  - exists (NL :: join [NL] (l' :: rest)). split; [reflexivity |].
    right. now eexists.
Qed.

(** The line kept in [lines[0]] has no two spaces in a row and no
    newline, when the first line it was made from has none. *)
Lemma budgeted_first_collapsed (processed : str) (options : Options) :
  noTwo SP (first (split processed NL)) = true ->
  noTwo SP (first (budgeted processed options)) = true
  /\ ~ In NL (first (budgeted processed options))
  /\ tl (budgeted processed options) = tl (split processed NL).
Proof.
  intros H2. unfold budgeted.
  pose proof (first_split_no_sep processed NL) as Hnl.
  pose proof (split_not_empty processed NL) as Hne.
  set (l0 := first (split processed NL)) in *.
  set (budget := orDefault (maxLength options) 50).
  assert (Hset : forall v, first (setFirst (split processed NL) v) = v
                           /\ tl (setFirst (split processed NL) v)
                              = tl (split processed NL)).
  { intros v. destruct (split processed NL); [now elim Hne | now split]. }
  destruct (budget <? len l0); [| now repeat split].
  destruct ((0 <? indexOf l0 COLON) && (indexOf l0 COLON <? budget)) eqn:Ec.
  - apply andb_true_iff in Ec as [E1 _]. apply Z.ltb_lt in E1.
    set (ci := indexOf l0 COLON) in *.
    destruct (_ <? len (trim _)); [| now repeat split].
    destruct (Hset (substring l0 0 (ci + 1) ++ [SP]
                    ++ trim (substring
                               (trim (substringFrom l0 (ci + 1))) 0
                               (budget - len (substring l0 0 (ci + 1)) - 1))))
      as [-> ->].
    set (y := trim (substring _ 0 _)).
    assert (Hy : partOf y l0).
    { unfold y. eapply partOf_trans; [apply partOf_trim |].
      eapply partOf_trans; [apply partOf_substring |].
      eapply partOf_trans; [apply partOf_trim | apply partOf_substring]. }
    assert (Hp : partOf (substring l0 0 (ci + 1)) l0)
      by apply partOf_substring.
    (* the prefix ends with the colon *)
    assert (Hprefix : substring l0 0 (ci + 1)
                      = firstn (Z.to_nat ci) l0 ++ [COLON]).
    { pose proof (indexOf_nth l0 COLON ltac:(fold ci; lia)) as Hnth.
      fold ci in Hnth. rewrite substring_0.
      replace (Z.to_nat (ci + 1)) with (S (Z.to_nat ci)) by lia.
      clear - Hnth. revert Hnth. generalize (Z.to_nat ci) as n.
      induction l0 as [| z l IH]; intros [| n] H; try discriminate.
      - injection H as ->. reflexivity.
      - cbn [firstn app]. f_equal. apply IH. exact H. }
    split; [| split; [| reflexivity]].
    + cbn [app]. rewrite noTwo_app_at. apply andb_true_iff. split.
      * rewrite Hprefix, <- app_assoc. cbn [app].
        rewrite noTwo_app_at, <- Hprefix.
        rewrite (noTwo_partOf SP _ l0 Hp H2). reflexivity.
      * rewrite noTwo_cons, (noTwo_partOf SP y l0 Hy H2), andb_true_r.
        destruct y as [| c r] eqn:Ey; [reflexivity |].
        assert (Hc : isWhiteSpace c = false).
        { assert (Hs : trimStart y = y).
          { unfold y. unfold trim. apply trimStart_trimEnd, trimStart_idem. }
          rewrite Ey in Hs. cbn [trimStart] in Hs.
          destruct (isWhiteSpace c) eqn:E; [| reflexivity].
          pose proof (len_trimStart r) as Hl. rewrite Hs in Hl.
          unfold len in Hl. simpl in Hl. lia. }
        destruct (char_eqb c SP) eqn:E; [| reflexivity].
        apply char_eqb_eq in E. subst c. discriminate Hc.
    + intros H. apply in_app_or in H as [H | H].
      * apply Hnl. eapply partOf_In; [exact Hp | exact H].
      * cbn [app] in H. destruct H as [H | H]; [discriminate H |].
        apply Hnl. eapply partOf_In; [exact Hy | exact H].
  - destruct (Hset (trim (substring l0 0 budget))) as [-> ->].
    assert (Hy : partOf (trim (substring l0 0 budget)) l0).
    { eapply partOf_trans; [apply partOf_trim | apply partOf_substring]. }
    split; [exact (noTwo_partOf SP _ l0 Hy H2) |].
    split; [| reflexivity].
    intros H. apply Hnl. eapply partOf_In; [exact Hy | exact H].
Qed.

(** The result of [postProcessMessage] has no two spaces in a row and no
    three newlines in a row. *)
Theorem postProcessMessage_collapsed (raw : str) (options : Options) :
  noTwo SP (postProcessMessage raw options) = true
  /\ noThree NL (postProcessMessage raw options) = true.
Proof.
  destruct (cleaned_collapsed raw) as [H2 H3].
  pose proof (join_split (cleaned raw)) as Hjoin.
  pose proof (split_not_empty (cleaned raw) NL) as Hne.
  assert (Hl0 : noTwo SP (first (split (cleaned raw) NL)) = true).
  { destruct (split (cleaned raw) NL) as [| l0 rest]; [contradiction |].
    destruct (join_tail rest) as (tail & Htail & _).
    rewrite Htail in Hjoin. rewrite <- Hjoin in H2.
    now apply noTwo_app_l in H2. }
  destruct (budgeted_first_collapsed (cleaned raw) options Hl0)
    as (Hk2 & Hknl & Hrest).
  unfold postProcessMessage.
  destruct (budgeted (cleaned raw) options) as [| l rest'] eqn:Elines.
  { split; reflexivity. }
  cbn [first hd tl] in *.
  destruct (split (cleaned raw) NL) as [| l0 rest]; [contradiction |].
  cbn [tl] in Hrest. subst rest'.
  destruct (join_tail rest) as (tail & Htail & Hshape).
  rewrite Htail in Hjoin |- *.
  assert (Ht2 : noTwo SP tail = true)
    by (rewrite <- Hjoin in H2; now apply noTwo_app_r in H2).
  assert (Ht3 : noThree NL tail = true)
    by (rewrite <- Hjoin in H3; now apply noThree_app_r in H3).
  split.
  - apply (noTwo_partOf SP _ _ (partOf_trim _)).
    destruct Hshape as [-> | (v & ->)]; [now rewrite app_nil_r |].
    rewrite noTwo_app_at, Ht2, andb_true_r.
    now rewrite noTwo_snoc_other by reflexivity.
  - apply (noThree_partOf NL _ _ (partOf_trim _)).
    now rewrite noThree_app_free.
Qed.

End Collapsed.
